(** * A-star grid search (A*.cpp): shallow embedding and verification

    The program is one C++ translation unit: a [Node] struct, the helpers
    [get_neighbors], [heuristic] and [reconstruct_path], and the search
    [a_star].  The embedding follows the source line by line.

    - [int] is modelled as [Z] with two's-complement wrap-around written out
      ([wrap]); the grid is a [vector<vector<int>>], here [list (list Z)].
      Signed overflow, formally undefined in C++, is taken to wrap as it
      does on the usual targets; it can only occur for a start coordinate
      at the very end of the [int] range, and the bounds check then rejects
      the wrapped candidate.
    - The [double] fields [g], [h], [f] only ever hold sums of small
      integers, which doubles represent exactly; they are modelled as [Z].
    - [Node *] is an index into an arena [heap : list Node], in allocation
      order: the k-th [new Node] of a call gets index k.  No node is freed
      before the search returns, so indices stay valid and distinct.
    - The numeric value of a pointer (which is what [greater<Node *>]
      compares) is [addr k], a parameter of the development: it is chosen
      by the allocator, not by the program.
    - Undefined behaviour (indexing a vector out of range, dereferencing an
      invalid pointer) is the outcome [Undefined]; loops take fuel and give
      [OutOfFuel] when it runs out. *)

From stdpp Require Import gmap list sorting.

Open Scope Z_scope.

(** ** Machine integers *)

Definition int_min : Z := -2147483648.
Definition int_max : Z := 2147483647.

Definition in_int (z : Z) : Prop := int_min ≤ z ≤ int_max.

Definition wrap (z : Z) : Z := (z + 2147483648) `mod` 4294967296 - 2147483648.

(** ** Outcomes of a computation *)

Inductive result (A : Type) : Type :=
  | Ok (a : A)
  | Undefined
  | OutOfFuel.
Arguments Ok {A} a.
Arguments Undefined {A}.
Arguments OutOfFuel {A}.

#[global] Instance result_ret : MRet result := fun A a => Ok a.
#[global] Instance result_bind : MBind result := fun A B k m =>
  match m with
  | Ok a => k a
  | Undefined => Undefined
  | OutOfFuel => OutOfFuel
  end.

(** ** Data model *)

Abbreviation ptr := nat (only parsing).
Abbreviation coord := (Z * Z)%type (only parsing).
Abbreviation Grid := (list (list Z)) (only parsing).

(** struct Node *)
Record Node : Type := mkNode {
  x : Z;
  y : Z;
  g : Z;
  h : Z;
  f : Z;
  parent : option ptr
}.

(** Node(int x, int y, double g = 0.0, double h = 0.0, Node *parent = nullptr) *)
Definition new_Node (x0 y0 g0 h0 : Z) (parent0 : option ptr) : Node :=
  {| x := x0; y := y0; g := g0; h := h0; f := g0 + h0; parent := parent0 |}.

Definition pos (n : Node) : coord := (x n, y n).

(** NodeEqual: keys of the unordered_map are compared by coordinates. *)
Definition NodeEqual (a b : Node) : bool := (x a =? x b) && (y a =? y b).

Definition deref (heap : list Node) (p : ptr) : result Node :=
  match heap !! p with
  | Some n => Ok n
  | None => Undefined
  end.

(** ** get_neighbors *)

Definition directions : list (Z * Z) := [(-1, 0); (1, 0); (0, -1); (0, 1)].

(** grid[i][j]: an index that is negative or past the end of the vector is
    undefined behaviour. *)
Definition grid_at (grid : Grid) (i j : Z) : result Z :=
  if (i <? 0) || (j <? 0) then Undefined
  else
    match grid !! Z.to_nat i with
    | Some row =>
        match row !! Z.to_nat j with
        | Some v => Ok v
        | None => Undefined
        end
    | None => Undefined
    end.

(** The for loop over [directions]; every accepted cell is a fresh
    [new Node(newX, newY)] appended to [neighbors]. *)
Fixpoint scan_directions (dirs : list (Z * Z)) (grid : Grid) (x0 y0 rows cols : Z)
    (heap : list Node) (neighbors : list ptr) : result (list Node * list ptr) :=
  match dirs with
  | [] => Ok (heap, neighbors)
  | dir :: dirs' =>
      let newX := wrap (x0 + dir.1) in
      let newY := wrap (y0 + dir.2) in
      if (0 <=? newX) && (newX <? rows) && (0 <=? newY) && (newY <? cols) then
        v ← grid_at grid newX newY;
        if v =? 0 then
          scan_directions dirs' grid x0 y0 rows cols
            (heap ++ [new_Node newX newY 0 0 None]) (neighbors ++ [length heap])
        else scan_directions dirs' grid x0 y0 rows cols heap neighbors
      else scan_directions dirs' grid x0 y0 rows cols heap neighbors
  end.

Definition get_neighbors (heap : list Node) (node : ptr) (grid : Grid)
    : result (list Node * list ptr) :=
  n ← deref heap node;
  let rows := wrap (Z.of_nat (length grid)) in
  match grid !! 0%nat with
  | None => Undefined
  | Some row0 =>
      let cols := wrap (Z.of_nat (length row0)) in
      scan_directions directions grid (x n) (y n) rows cols heap []
  end.

(** ** heuristic *)

Definition heuristic (a b : Node) : Z :=
  wrap (wrap (Z.abs (wrap (x a - x b))) + wrap (Z.abs (wrap (y a - y b)))).

(** ** reconstruct_path *)

(** The while loop: follow [parent] until it is null. *)
Fixpoint walk_parents (fuel : nat) (heap : list Node) (node : option ptr)
    (path : list coord) : result (list coord) :=
  match node with
  | None => Ok path
  | Some p =>
      match fuel with
      | O => OutOfFuel
      | S fuel' =>
          n ← deref heap p;
          walk_parents fuel' heap (parent n) (path ++ [(x n, y n)])
      end
  end.

Definition reconstruct_path (fuel : nat) (heap : list Node) (node : ptr)
    : result (list coord) :=
  path ← walk_parents fuel heap (Some node) [];
  mret (reverse path).

(** ** a_star *)

Record state : Type := mkState {
  heap : list Node;
  openSet : list ptr;
  allNodes : gmap coord ptr
}.

Definition startNode : ptr := 0%nat.
Definition goalNode : ptr := 1%nat.

Definition init_state (start goal : coord) : state :=
  {| heap := [new_Node start.1 start.2 0 0 None; new_Node goal.1 goal.2 0 0 None];
     openSet := [startNode];
     allNodes := {[ start := startNode ]} |}.

Inductive step (A : Type) : Type :=
  | Continue (st : state)
  | Return (r : result A).
Arguments Continue {A} st.
Arguments Return {A} r.

Fixpoint remove_first (p : ptr) (l : list ptr) : list ptr :=
  match l with
  | [] => []
  | q :: l' => if decide (p = q) then l' else q :: remove_first p l'
  end.

Section Search.

(** [addr p] is the numeric address of the node with arena index [p]. *)
Variable addr : ptr → Z.

(** priority_queue<Node *, vector<Node *>, greater<Node *>>: the
    comparator is [greater] on the pointers themselves, so [top] is the
    entry with the least address.  The binary heap inside the queue is
    abstracted to the collection of its entries: live nodes have pairwise
    distinct addresses, so the least entry, and with it the order of
    removal, does not depend on the layout of the heap array. *)
Fixpoint top (open : list ptr) : option ptr :=
  match open with
  | [] => None
  | p :: rest =>
      match top rest with
      | None => Some p
      | Some q => if addr q <? addr p then Some q else Some p
      end
  end.

Definition pop (open : list ptr) : list ptr :=
  match top open with
  | None => open
  | Some p => remove_first p open
  end.

Definition push (p : ptr) (open : list ptr) : list ptr := open ++ [p].

(** Body of [for (auto &neighbor : neighbors)]. *)
Definition visit_neighbor (current : ptr) (st : state) (neighbor : ptr) : result state :=
  cur ← deref (heap st) current;
  nb ← deref (heap st) neighbor;
  goalN ← deref (heap st) goalNode;
  let tentative_g := g cur + 1 in
  if bool_decide (allNodes st !! pos nb = None) || (tentative_g <? g nb) then
    let g' := tentative_g in
    let h' := heuristic nb goalN in
    let nb' := {| x := x nb; y := y nb; g := g'; h := h'; f := g' + h';
                  parent := Some current |} in
    mret {| heap := <[neighbor := nb']> (heap st);
            openSet := push neighbor (openSet st);
            allNodes := <[pos nb := neighbor]> (allNodes st) |}
  else mret st.

Fixpoint visit_neighbors (current : ptr) (st : state) (neighbors : list ptr)
    : result state :=
  match neighbors with
  | [] => Ok st
  | neighbor :: rest =>
      st' ← visit_neighbor current st neighbor;
      visit_neighbors current st' rest
  end.

(** One test of the while condition followed by one loop body. *)
Definition loop_body (fuel : nat) (grid : Grid) (st : state) : step (list coord) :=
  match top (openSet st) with
  | None => Return (Ok [])
  | Some current =>
      let open' := pop (openSet st) in
      match deref (heap st) current, deref (heap st) goalNode with
      | Ok cur, Ok goalN =>
          if (x cur =? x goalN) && (y cur =? y goalN) then
            Return (reconstruct_path fuel (heap st) current)
          else
            match get_neighbors (heap st) current grid with
            | Ok (heap', neighbors) =>
                match visit_neighbors current
                        {| heap := heap'; openSet := open'; allNodes := allNodes st |}
                        neighbors with
                | Ok st' => Continue st'
                | Undefined => Return Undefined
                | OutOfFuel => Return OutOfFuel
                end
            | Undefined => Return Undefined
            | OutOfFuel => Return OutOfFuel
            end
      | _, _ => Return Undefined
      end
  end.

Fixpoint main_loop (fuel0 fuel : nat) (grid : Grid) (st : state) : result (list coord) :=
  match fuel with
  | O => OutOfFuel
  | S fuel' =>
      match loop_body fuel0 grid st with
      | Continue st' => main_loop fuel0 fuel' grid st'
      | Return r => r
      end
  end.

(** [a_star] with both loops bounded by [fuel] iterations. *)
Definition a_star_fuel (fuel : nat) (grid : Grid) (start goal : coord)
    : result (list coord) :=
  main_loop fuel fuel grid (init_state start goal).

(** Number of iterations that always suffices (see [a_star_fuel_halts]). *)
Definition fuel_bound (grid : Grid) : nat :=
  S (S (length grid * length (default [] (grid !! 0%nat)))).

Definition a_star (grid : Grid) (start goal : coord) : result (list coord) :=
  a_star_fuel (fuel_bound grid) grid start goal.

(** The state after [k] full iterations, when the loop gets that far. *)
Fixpoint iterate (k : nat) (grid : Grid) (st : state) : option state :=
  match k with
  | O => Some st
  | S k' =>
      match loop_body (fuel_bound grid) grid st with
      | Continue st' => iterate k' grid st'
      | Return _ => None
      end
  end.

End Search.

(** ** Specification vocabulary *)

(** Grid dimensions as [get_neighbors] computes them: [int rows = grid.size()],
    [int cols = grid[0].size()]. *)
Definition rows (grid : Grid) : Z := wrap (Z.of_nat (length grid)).
Definition cols (grid : Grid) : Z :=
  wrap (Z.of_nat (length (default [] (grid !! 0%nat)))).

Definition in_bounds (grid : Grid) (c : coord) : Prop :=
  0 ≤ c.1 < Z.of_nat (length grid) ∧
  0 ≤ c.2 < Z.of_nat (length (default [] (grid !! 0%nat))).

Definition cell (grid : Grid) (c : coord) : option Z :=
  grid !! Z.to_nat c.1 ≫= λ row, row !! Z.to_nat c.2.

(** A walkable cell: inside the grid and holding 0. *)
Definition walkable (grid : Grid) (c : coord) : Prop :=
  in_bounds grid c ∧ cell grid c = Some 0.

#[global] Instance walkable_dec grid c : Decision (walkable grid c).
Proof. unfold walkable, in_bounds. apply _. Defined.

(** The four cells one orthogonal step away, in the order of [directions]:
    up, down, left, right. *)
Definition steps (c : coord) : list coord :=
  [(c.1 - 1, c.2); (c.1 + 1, c.2); (c.1, c.2 - 1); (c.1, c.2 + 1)].

Definition adjacent (a b : coord) : Prop := b ∈ steps a.

#[global] Instance adjacent_dec a b : Decision (adjacent a b).
Proof. unfold adjacent. apply _. Defined.

Definition stepwise (p : list coord) : Prop :=
  ∀ i a b, p !! i = Some a → p !! S i = Some b → adjacent a b.

(** A route of the grid from [a] to [b]: unit orthogonal steps, every cell
    entered is walkable. *)
Definition route (grid : Grid) (a b : coord) (p : list coord) : Prop :=
  head p = Some a ∧ last p = Some b ∧ stepwise p ∧ Forall (walkable grid) (tail p).

Definition reachable (grid : Grid) (a b : coord) : Prop := ∃ p, route grid a b p.

(** Non-empty, all rows as long as the first. *)
Definition rectangular (grid : Grid) : Prop :=
  grid ≠ [] ∧ ∀ row, row ∈ grid → length row = length (default [] (grid !! 0%nat)).

(** What the condition in [get_neighbors] accepts. *)
Definition admissible (grid : Grid) (c : coord) : Prop :=
  0 ≤ c.1 < rows grid ∧ 0 ≤ c.2 < cols grid ∧ grid_at grid c.1 c.2 = Ok 0.

#[global] Instance result_eq_dec {A} `{EqDecision A} : EqDecision (result A).
Proof. solve_decision. Defined.

#[global] Instance admissible_dec grid c : Decision (admissible grid c).
Proof. unfold admissible. apply _. Defined.

(** The candidate cell in direction [d], as the source computes it. *)
Definition cand (x0 y0 : Z) (d : Z * Z) : coord := (wrap (x0 + d.1), wrap (y0 + d.2)).

(** [new Node(newX, newY)] *)
Definition fresh (c : coord) : Node := new_Node c.1 c.2 0 0 None.

(** ** Loop invariant *)

(** [p] points to node [n], and the registry maps the node's coordinates
    back to [p]. *)
Definition registered (st : state) (p : ptr) (n : Node) : Prop :=
  heap st !! p = Some n ∧ allNodes st !! pos n = Some p.

(** [b] is one of the four candidates generated from [a]. *)
Definition generated (a b : coord) : Prop := b ∈ (cand a.1 a.2 <$> directions).

(** A registered node is the start node, or it was admitted from its
    parent: one generated step away, one unit of cost more. *)
Definition node_ok (grid : Grid) (start : coord) (st : state) (p : ptr) (n : Node) : Prop :=
  (p = startNode ∧ n = fresh start) ∨
  (∃ q m, parent n = Some q ∧ registered st q m ∧ 0 ≤ g m ∧ g n = g m + 1 ∧
          generated (pos m) (pos n) ∧ admissible grid (pos n)).

(** [W] is the watermark below which the arena is no longer written. *)
Record Inv (grid : Grid) (start goal : coord) (W : nat) (st : state) : Prop := {
  inv_start : heap st !! startNode = Some (fresh start);
  inv_goal : heap st !! goalNode = Some (fresh goal);
  inv_W : (2 ≤ W ≤ length (heap st))%nat;
  inv_open : ∀ p, p ∈ openSet st → ∃ n, registered st p n;
  inv_reg : ∀ c p, allNodes st !! c = Some p →
      (p < W)%nat ∧
      ∃ n, heap st !! p = Some n ∧ pos n = c ∧
           g n < Z.of_nat (size (allNodes st)) ∧ node_ok grid start st p n
}.

(** The registered cost of a coordinate. *)
Definition gcost (st : state) (c : coord) : option Z :=
  p ← allNodes st !! c; n ← heap st !! p; Some (g n).

(** The coordinates along the parent links, start first. *)
Inductive trail (grid : Grid) (start : coord) (st : state) : list coord → coord → Z → Prop :=
  | trail_start :
      gcost st start = Some 0 → trail grid start st [start] start 0
  | trail_snoc P a b k :
      trail grid start st P a k →
      generated a b → admissible grid b → gcost st b = Some (k + 1) →
      trail grid start st (P ++ [b]) b (k + 1).

(** Every in-range cell of the grid, as the bounds check sees it. *)
Definition cells (grid : Grid) : list coord :=
  list_prod (seqZ 0 (Z.of_nat (length grid)))
            (seqZ 0 (Z.of_nat (length (default [] (grid !! 0%nat))))).

(** ** Concrete inputs used below *)

(** A heap that hands out each new node below all earlier ones. *)
Definition down (p : ptr) : Z := - Z.of_nat p.

(** A heap that hands out increasing addresses. *)
Definition up (p : ptr) : Z := Z.of_nat p.

(** The 3x3 grid of the specification, centre blocked. *)
Definition ring : Grid := [[0; 0; 0]; [0; 1; 0]; [0; 0; 0]].

(** The same ring, a wall, and a column beyond the wall. *)
Definition walled : Grid := [[0; 0; 0; 1; 0]; [0; 1; 0; 1; 0]; [0; 0; 0; 1; 0]].

(** ** The remaining members of the source *)

Section Hash.

(** [hash_int] stands for [std::hash<int>], which the implementation
    chooses; the result type [size_t] is unsigned. *)
Variable hash_int : Z → Z.

(** NodeHash: the two coordinate hashes combined with xor. *)
Definition NodeHash (n : Node) : Z := Z.lxor (hash_int (x n)) (hash_int (y n)).

End Hash.

(** The distance the heuristic is meant to compute. *)
Definition manhattan (a b : coord) : Z := Z.abs (a.1 - b.1) + Z.abs (a.2 - b.2).

(** The coordinates of the nodes a call of [get_neighbors] returned. *)
Definition returned_cells (res : list Node * list ptr) : list coord :=
  omap (λ p, pos <$> res.1 !! p) res.2.

(** A registered coordinate has been expanded: it is not the goal and all
    the cells [get_neighbors] accepts around it are registered. *)
Definition expanded (grid : Grid) (goal : coord) (st : state) (c : coord) : Prop :=
  c ≠ goal ∧ ∀ c', generated c c' → admissible grid c' → is_Some (allNodes st !! c').

(** Every registered coordinate is still waiting in the open set or has
    been expanded. *)
Definition closed (grid : Grid) (goal : coord) (st : state) : Prop :=
  ∀ c p, allNodes st !! c = Some p → p ∈ openSet st ∨ expanded grid goal st c.

(** The fields of a registered node: [f = g + h]; the start node has all
    three at 0, every other node has the heuristic to the goal in [h]. *)
Definition fields_ok (goal : coord) (p : ptr) (n : Node) : Prop :=
  f n = g n + h n ∧ 0 ≤ g n ∧
  (p = startNode ∧ g n = 0 ∧ h n = 0 ∨
   p ≠ startNode ∧ 0 < g n ∧ h n = heuristic n (fresh goal)).

(** The new node of an admitted neighbour. *)
Definition admitted (goal : coord) (st : state) (current : ptr) (cur : Node) (p : ptr)
    : Prop :=
  p ≠ startNode ∧
  ∃ n, heap st !! p = Some n ∧ h n = heuristic n (fresh goal) ∧ f n = g n + h n ∧
       g n = g cur + 1 ∧ parent n = Some current.

(** What holds of every state the search passes through. *)
Definition search_inv (grid : Grid) (start goal : coord) (st : state) : Prop :=
  Inv grid start goal (length (heap st)) st ∧
  closed grid goal st ∧
  NoDup (openSet st) ∧
  ∀ p n, registered st p n → fields_ok goal p n.

(** The cost stored in the node at [p]. *)
Definition gof (st : state) (p : ptr) : Z := default 0 (g <$> heap st !! p).

(** The shape of the search when it is a breadth-first one: the open set
    is in order of allocation with costs that never decrease and span at
    most one level, and a node that has left the open set costs no more
    than any that is still in it, its neighbours at most one more. *)
Definition bfs_inv (grid : Grid) (goal : coord) (st : state) : Prop :=
  StronglySorted lt (openSet st) ∧
  (∀ p q, p ∈ openSet st → q ∈ openSet st → (p < q)%nat → gof st p ≤ gof st q) ∧
  (∀ p q, p ∈ openSet st → q ∈ openSet st → gof st q ≤ gof st p + 1) ∧
  (∀ c p, allNodes st !! c = Some p →
     p ∈ openSet st ∨
     (c ≠ goal ∧ (∀ q, q ∈ openSet st → gof st p ≤ gof st q) ∧
      ∀ c', generated c c' → admissible grid c' →
            ∃ p', allNodes st !! c' = Some p' ∧ gof st p' ≤ gof st p + 1)).

(** The cleanup loops, [for (auto &pair : allNodes) delete pair.first]:
    the pointers deleted, in the iteration order of the map.  A key is
    only ever inserted for an absent coordinate, so the pointer stored
    under a coordinate is the key itself. *)
Definition cleanup (st : state) : list ptr := snd <$> map_to_list (allNodes st).

(** Non-empty, and no row shorter than the first: the column bound
    [cols], taken from the first row, is then in range for every row. *)
Definition no_short_row (grid : Grid) : Prop :=
  grid ≠ [] ∧
  ∀ row, row ∈ grid → (length (default [] (grid !! 0%nat)) ≤ length row)%nat.

(** * Verification *)

Lemma bind_Ok {A B} (a : A) (k : A → result B) : (Ok a ≫= k) = k a.
Proof. reflexivity. Qed.

Lemma grid_at_nonneg grid i j :
  0 ≤ i → 0 ≤ j →
  grid_at grid i j =
    match grid !! Z.to_nat i with
    | Some row => match row !! Z.to_nat j with Some v => Ok v | None => Undefined end
    | None => Undefined
    end.
Proof.
  intros Hi Hj. unfold grid_at.
  by rewrite (proj2 (Z.ltb_ge i 0) Hi), (proj2 (Z.ltb_ge j 0) Hj).
Qed.

(** The registry compares keys with [NodeEqual], that is, by coordinates;
    [allNodes] is therefore keyed by [pos]. *)
Lemma NodeEqual_pos a b : NodeEqual a b = true ↔ pos a = pos b.
Proof.
  unfold NodeEqual, pos. rewrite andb_true_iff, !Z.eqb_eq.
  split; [by intros [-> ->]|by intros [= -> ->]].
Qed.

(** ** Machine integer facts *)

Lemma wrap_in_int z : in_int (wrap z).
Proof.
  unfold in_int, wrap, int_min, int_max.
  pose proof (Z.mod_pos_bound (z + 2147483648) 4294967296). lia.
Qed.

Lemma wrap_id z : in_int z → wrap z = z.
Proof.
  unfold in_int, wrap, int_min, int_max. intros Hz.
  rewrite Z.mod_small; lia.
Qed.

Lemma wrap_below n z : 0 ≤ n → z < wrap n → z < n.
Proof.
  unfold wrap. intros Hn Hz.
  pose proof (Z.mod_le (n + 2147483648) 4294967296). lia.
Qed.

Lemma rows_le_int grid : rows grid ≤ int_max.
Proof. apply wrap_in_int. Qed.

Lemma cols_le_int grid : cols grid ≤ int_max.
Proof. apply wrap_in_int. Qed.

Lemma admissible_walkable grid c : admissible grid c → walkable grid c.
Proof.
  destruct c as [i j]. unfold admissible, walkable, in_bounds, cell, rows, cols.
  simpl. intros (Hi & Hj & Hv). rewrite grid_at_nonneg in Hv by lia.
  split.
  - split; split; try lia.
    + eapply wrap_below; [|apply Hi]; lia.
    + eapply wrap_below; [|apply Hj]; lia.
  - destruct (grid !! Z.to_nat i) as [row|]; simpl; [|done].
    destruct (row !! Z.to_nat j) as [v|]; [|done]. congruence.
Qed.

Lemma admissible_in_int grid c : admissible grid c → in_int c.1 ∧ in_int c.2.
Proof.
  intros (Hi & Hj & _). pose proof (rows_le_int grid). pose proof (cols_le_int grid).
  unfold in_int, int_min, int_max in *. lia.
Qed.

(** A candidate of [get_neighbors] that passes the range check is the
    mathematical neighbour: the wrap-around is never observed. *)
Lemma wrap_step_exact bound z d :
  in_int z → -1 ≤ d ≤ 1 → bound ≤ int_max → 0 ≤ wrap (z + d) < bound → wrap (z + d) = z + d.
Proof.
  intros Hz Hd Hb Hw.
  assert (z + d = 2147483648 ∨ z + d = -2147483649 ∨ in_int (z + d)) as [E|[E|E]]
    by (unfold in_int, int_min, int_max in *; lia).
  - rewrite E in Hw. change (wrap 2147483648) with (-2147483648) in Hw. lia.
  - rewrite E in Hw. unfold int_max in Hb. change (wrap (-2147483649)) with 2147483647 in Hw. lia.
  - by apply wrap_id.
Qed.

(** ** The open set *)

Section OpenSet.

Variable addr : ptr → Z.

Lemma top_None open : top addr open = None ↔ open = [].
Proof.
  destruct open as [|p rest]; simpl; [done|].
  split; [|done].
  destruct (top addr rest) as [q|]; [|done].
  by destruct (addr q <? addr p).
Qed.

Lemma top_elem open p : top addr open = Some p → p ∈ open.
Proof.
  revert p. induction open as [|a rest IH]; intros p; simpl; [done|].
  destruct (top addr rest) as [q|].
  - destruct (addr q <? addr a); intros [= <-].
    + right. by apply IH.
    + left.
  - intros [= <-]. left.
Qed.

(** What the comparator of the source gives: the entry removed is the
    one with the least address. *)
Lemma top_least open p q : top addr open = Some p → q ∈ open → addr p ≤ addr q.
Proof.
  revert p. induction open as [|a rest IH]; intros p; simpl; [done|].
  intros Htop Hq.
  destruct (top addr rest) as [r|] eqn:Hr.
  - specialize (IH r eq_refl).
    destruct (addr r <? addr a) eqn:Hlt; injection Htop as <-.
    + apply Z.ltb_lt in Hlt. apply elem_of_cons in Hq as [->|Hq]; [lia|auto].
    + apply Z.ltb_ge in Hlt. apply elem_of_cons in Hq as [->|Hq]; [lia|].
      specialize (IH Hq). lia.
  - injection Htop as <-. apply top_None in Hr as ->.
    apply elem_of_cons in Hq as [->|Hq]; [lia|]. by apply elem_of_nil in Hq.
Qed.

Lemma remove_first_elem p q l : q ∈ remove_first p l → q ∈ l.
Proof.
  induction l as [|a l IH]; simpl; [done|].
  case_decide.
  - intros. by right.
  - intros [->|H']%elem_of_cons; [left|right; auto].
Qed.

Lemma remove_first_length p l : p ∈ l → S (length (remove_first p l)) = length l.
Proof.
  induction l as [|a l IH]; simpl.
  - by intros ?%elem_of_nil.
  - case_decide; [done|].
    intros [->|H']%elem_of_cons; [done|]. simpl. by rewrite IH.
Qed.

Lemma pop_elem open q : q ∈ pop addr open → q ∈ open.
Proof.
  unfold pop. destruct (top addr open); [apply remove_first_elem|done].
Qed.

Lemma pop_length open p : top addr open = Some p → S (length (pop addr open)) = length open.
Proof.
  intros Htop. unfold pop. rewrite Htop.
  apply remove_first_length. by apply top_elem.
Qed.

End OpenSet.

(** ** get_neighbors *)

Lemma scan_directions_Ok dirs grid x0 y0 heap nbs heap' nbs' :
  scan_directions dirs grid x0 y0 (rows grid) (cols grid) heap nbs = Ok (heap', nbs') →
  heap' = heap ++ (fresh <$> filter (admissible grid) (cand x0 y0 <$> dirs)) ∧
  nbs' = nbs ++ seq (length heap) (length (filter (admissible grid) (cand x0 y0 <$> dirs))).
Proof.
  revert heap nbs. induction dirs as [|d dirs IH]; intros heap nbs; cbn [scan_directions].
  - intros [= <- <-]. simpl. by rewrite !app_nil_r.
  - rewrite fmap_cons, filter_cons.
    set (c := cand x0 y0 d).
    change (wrap (x0 + d.1)) with (c.1). change (wrap (y0 + d.2)) with (c.2).
    destruct ((0 <=? c.1) && (c.1 <? rows grid) && (0 <=? c.2) && (c.2 <? cols grid)) eqn:Hb.
    + destruct (grid_at grid c.1 c.2) as [v| |] eqn:Hv; simpl; [|done..].
      destruct (v =? 0) eqn:Hz.
      * apply Z.eqb_eq in Hz as ->.
        rewrite decide_True; last first.
        { unfold admissible. rewrite Hv. repeat split; lia. }
        intros H. apply IH in H as [-> ->].
        rewrite length_app. simpl.
        rewrite <- !app_assoc. simpl.
        by rewrite Nat.add_1_r.
      * apply Z.eqb_neq in Hz.
        rewrite decide_False; [apply IH|].
        unfold admissible. rewrite Hv. intros (_ & _ & [= ?]). done.
    + rewrite decide_False; [apply IH|].
      unfold admissible. lia.
Qed.

Lemma scan_directions_defined dirs grid x0 y0 heap nbs :
  rectangular grid →
  ∃ res, scan_directions dirs grid x0 y0 (rows grid) (cols grid) heap nbs = Ok res.
Proof.
  intros [Hne Hrect]. revert heap nbs.
  induction dirs as [|d dirs IH]; intros heap nbs; cbn [scan_directions]; [eauto|].
  set (c := cand x0 y0 d).
  change (wrap (x0 + d.1)) with (c.1). change (wrap (y0 + d.2)) with (c.2).
  destruct ((0 <=? c.1) && (c.1 <? rows grid) && (0 <=? c.2) && (c.2 <? cols grid)) eqn:Hb;
    [|apply IH].
  assert (0 ≤ c.1 < Z.of_nat (length grid) ∧
          0 ≤ c.2 < Z.of_nat (length (default [] (grid !! 0%nat)))) as [Hi Hj].
  { unfold rows, cols in Hb. split; (split; [lia|]); eapply wrap_below; lia. }
  rewrite grid_at_nonneg by lia.
  destruct (lookup_lt_is_Some_2 grid (Z.to_nat c.1)) as [row Hrow]; [lia|].
  rewrite Hrow.
  assert (length row = length (default [] (grid !! 0%nat))) as Hlen.
  { apply Hrect. eapply list_elem_of_lookup_2, Hrow. }
  destruct (lookup_lt_is_Some_2 row (Z.to_nat c.2)) as [v Hv]; [lia|].
  rewrite Hv. simpl. destruct (v =? 0); apply IH.
Qed.

Lemma get_neighbors_Ok heap p n grid heap' nbs :
  heap !! p = Some n →
  get_neighbors heap p grid = Ok (heap', nbs) →
  heap' = heap ++ (fresh <$> filter (admissible grid) (cand (x n) (y n) <$> directions)) ∧
  nbs = seq (length heap)
          (length (filter (admissible grid) (cand (x n) (y n) <$> directions))).
Proof.
  intros Hp. unfold get_neighbors, deref. rewrite Hp, bind_Ok.
  destruct (grid !! 0%nat) as [row0|] eqn:H0; [|done].
  intros H.
  replace (wrap (Z.of_nat (length row0))) with (cols grid) in H
    by (unfold cols; by rewrite H0).
  by apply (scan_directions_Ok directions grid (x n) (y n) heap []) in H.
Qed.

Lemma get_neighbors_defined heap p n grid :
  rectangular grid → heap !! p = Some n → ∃ res, get_neighbors heap p grid = Ok res.
Proof.
  intros Hrect Hp. unfold get_neighbors, deref. rewrite Hp, bind_Ok.
  destruct (grid !! 0%nat) as [row0|] eqn:H0.
  - replace (wrap (Z.of_nat (length row0))) with (cols grid)
      by (unfold cols; by rewrite H0).
    by apply scan_directions_defined.
  - destruct Hrect as [Hne _]. destruct grid; [done|discriminate].
Qed.

(** ** Preservation of the invariant *)

Section Invariant.

Variable grid : Grid.
Variables start goal : coord.

Lemma pos_fresh c : pos (fresh c) = c.
Proof. by destruct c. Qed.

Lemma Inv_init : Inv grid start goal 2 (init_state start goal).
Proof.
  split; simpl.
  - done.
  - done.
  - lia.
  - intros p ->%list_elem_of_singleton. exists (fresh start).
    split; [done|]. simpl. rewrite pos_fresh. apply lookup_singleton_eq.
  - intros c p [<- <-]%lookup_singleton_Some. split; [unfold startNode; lia|].
    exists (fresh start). rewrite pos_fresh, map_size_singleton.
    split_and!; [done..| ]. by left.
Qed.

Lemma Inv_weaken W W' st :
  Inv grid start goal W st → (W ≤ W' ≤ length (heap st))%nat → Inv grid start goal W' st.
Proof.
  intros [Hs Hg HW Ho Hr] HW'. split; [done|done|lia|done|].
  intros c p Hc. destruct (Hr c p Hc) as [Hlt Hn]. split; [lia|done].
Qed.

Lemma registered_inv W st p n :
  Inv grid start goal W st → registered st p n →
  (p < W)%nat ∧ g n < Z.of_nat (size (allNodes st)) ∧ node_ok grid start st p n.
Proof.
  intros HI [Hp Hc]. destruct (inv_reg _ _ _ _ _ HI _ _ Hc) as (Hlt & n' & Hp' & _ & Hg & Hok).
  assert (n' = n) as -> by congruence. done.
Qed.

Lemma registered_g_nonneg W st p n :
  Inv grid start goal W st → registered st p n → 0 ≤ g n.
Proof.
  intros HI Hr. destruct (registered_inv _ _ _ _ HI Hr) as (_ & _ & [[_ ->]|Hok]).
  - simpl. lia.
  - destruct Hok as (q & m & _ & _ & Hm & Hg & _). lia.
Qed.

Lemma registered_extend st news open' p n :
  registered st p n →
  registered {| heap := heap st ++ news; openSet := open'; allNodes := allNodes st |} p n.
Proof.
  intros [Hp Hc]. split; simpl; [|done].
  rewrite lookup_app_l; [done|]. by eapply lookup_lt_Some.
Qed.

(** Appending freshly allocated nodes and shrinking the open set. *)
Lemma Inv_extend W st news open' :
  Inv grid start goal W st → (∀ p, p ∈ open' → p ∈ openSet st) →
  Inv grid start goal W
    {| heap := heap st ++ news; openSet := open'; allNodes := allNodes st |}.
Proof.
  intros HI Hsub.
  assert (∀ p n, heap st !! p = Some n → (heap st ++ news) !! p = Some n) as Hlift.
  { intros p n Hp. rewrite lookup_app_l; [done|]. by eapply lookup_lt_Some. }
  assert (∀ p n, registered st p n →
            registered {| heap := heap st ++ news; openSet := open';
                          allNodes := allNodes st |} p n) as Hreg.
  { intros p n [Hp Hc]. split; simpl; auto. }
  destruct HI as [Hs Hg HW Ho Hr]. split; simpl.
  - auto.
  - auto.
  - rewrite length_app. lia.
  - intros p Hp. destruct (Ho p (Hsub p Hp)) as [n Hn]. eauto.
  - intros c p Hc. destruct (Hr c p Hc) as (Hlt & n & Hp & Hpos & Hgb & Hok).
    split; [done|]. exists n. split_and!; auto.
    destruct Hok as [?|(q & m & ? & ? & ?)]; [by left|right].
    exists q, m. split_and!; auto; tauto.
Qed.

(** One neighbour: either rejected (nothing changes) or admitted. *)
Lemma visit_neighbor_inv W st current cur nb c :
  Inv grid start goal W st → registered st current cur →
  (W ≤ nb < length (heap st))%nat → heap st !! nb = Some (fresh c) →
  generated (pos cur) c → admissible grid c →
  ∃ st', visit_neighbor current st nb = Ok st' ∧
         Inv grid start goal (S nb) st' ∧ registered st' current cur ∧
         length (heap st') = length (heap st) ∧
         (∀ q, q ≠ nb → heap st' !! q = heap st !! q) ∧
         (length (openSet st') + size (allNodes st) =
          length (openSet st) + size (allNodes st'))%nat.
Proof.
  intros HI Hcur [HW Hnb] Hfresh Hgen Hadm.
  pose proof (registered_g_nonneg _ _ _ _ HI Hcur) as Hg0.
  pose proof (registered_inv _ _ _ _ HI Hcur) as (HcurW & HcurB & _).
  unfold visit_neighbor, deref.
  rewrite (proj1 Hcur), bind_Ok, Hfresh, bind_Ok, (inv_goal _ _ _ _ _ HI), bind_Ok.
  rewrite pos_fresh.
  destruct (allNodes st !! c) as [p'|] eqn:Hc.
  - (* already registered: the fresh node's own g is 0, so the test fails *)
    rewrite bool_decide_eq_false_2 by done.
    replace (g cur + 1 <? g (fresh c)) with false by (simpl; lia).
    simpl. exists st. split_and!; auto.
    apply (Inv_weaken W); [done|lia].
  - rewrite bool_decide_eq_true_2 by done. simpl.
    eexists. split; [reflexivity|].
    set (nb' := {| x := x (fresh c); y := y (fresh c); g := g cur + 1;
                   h := heuristic (fresh c) (fresh goal);
                   f := g cur + 1 + heuristic (fresh c) (fresh goal);
                   parent := Some current |}).
    set (st' := {| heap := <[nb:=nb']> (heap st); openSet := push nb (openSet st);
                   allNodes := <[c:=nb]> (allNodes st) |}).
    assert (pos nb' = c) as Hpos' by (by destruct c).
    assert (∀ q n, registered st q n → registered st' q n) as Hlift.
    { intros q n Hq. destruct (registered_inv _ _ _ _ HI Hq) as (HqW & _).
      destruct Hq as [Hq1 Hq2]. split; simpl.
      - rewrite list_lookup_insert_ne by lia. done.
      - rewrite lookup_insert_ne; [done|]. intros ->. congruence. }
    assert (size (<[c:=nb]> (allNodes st)) = S (size (allNodes st))) as Hsize
      by (by apply map_size_insert_None).
    split_and!.
    + destruct HI as [Hs Hg HW2 Ho Hr]. split.
      * simpl. rewrite list_lookup_insert_ne by (unfold startNode; lia). done.
      * simpl. rewrite list_lookup_insert_ne by (unfold goalNode; lia). done.
      * simpl. rewrite length_insert. lia.
      * intros p [Hp| ->%list_elem_of_singleton]%elem_of_app.
        -- destruct (Ho p Hp) as [n Hn]. eauto.
        -- exists nb'. split; simpl.
           ++ by apply list_lookup_insert_eq.
           ++ rewrite Hpos'. apply lookup_insert_eq.
      * intros c' p. simpl. rewrite Hsize.
        intros [[<- <-]|[Hne Hc']]%lookup_insert_Some.
        -- split; [lia|]. exists nb'. split_and!.
           ++ by apply list_lookup_insert_eq.
           ++ done.
           ++ simpl. lia.
           ++ right. exists current, cur. rewrite Hpos'. split_and!; auto.
        -- destruct (Hr c' p Hc') as (Hlt & n & Hp & Hpos & Hgb & Hok).
           split; [lia|]. exists n. split_and!.
           ++ rewrite list_lookup_insert_ne by lia. done.
           ++ done.
           ++ lia.
           ++ destruct Hok as [?|(q & m & ? & ? & ?)]; [by left|right].
              exists q, m. split_and!; auto; tauto.
    + auto.
    + simpl. apply length_insert.
    + intros q Hq. simpl. by rewrite list_lookup_insert_ne.
    + simpl. unfold push. rewrite length_app, Hsize. simpl. lia.
Qed.

(** The for loop over the freshly allocated neighbours [W, W+1, ...]. *)
Lemma visit_neighbors_inv current cur cs : ∀ W st,
  Inv grid start goal W st → registered st current cur →
  (W + length cs ≤ length (heap st))%nat →
  (∀ i c, cs !! i = Some c → heap st !! (W + i)%nat = Some (fresh c)) →
  Forall (λ c, generated (pos cur) c ∧ admissible grid c) cs →
  ∃ st', visit_neighbors current st (seq W (length cs)) = Ok st' ∧
         Inv grid start goal (W + length cs) st' ∧
         length (heap st') = length (heap st) ∧
         (length (openSet st') + size (allNodes st) =
          length (openSet st) + size (allNodes st'))%nat.
Proof.
  induction cs as [|c cs IH]; intros W st HI Hcur Hlen Hheap Hall.
  - exists st. simpl. rewrite Nat.add_0_r. done.
  - apply Forall_cons in Hall as [[Hgen Hadm] Hall].
    simpl in Hlen.
    destruct (visit_neighbor_inv W st current cur W c) as
      (st1 & Hv & HI1 & Hcur1 & Hlen1 & Hsame & Hm1); auto; [lia| |].
    { specialize (Hheap 0%nat c eq_refl). by rewrite Nat.add_0_r in Hheap. }
    destruct (IH (S W) st1) as (st' & Hv' & HI' & Hlen' & Hm'); auto; [lia| |].
    { intros i c' Hi. rewrite Hsame by lia.
      replace (S W + i)%nat with (W + S i)%nat by lia. by apply Hheap. }
    exists st'. cbn [length seq visit_neighbors]. rewrite Hv, bind_Ok.
    replace (W + S (length cs))%nat with (S W + length cs)%nat by lia.
    split_and!; [done|done|lia|lia].
Qed.

Lemma candidates_generated n :
  Forall (λ c, generated (pos n) c ∧ admissible grid c)
         (filter (admissible grid) (cand (x n) (y n) <$> directions)).
Proof.
  apply Forall_forall. intros c [Hadm Hin]%list_elem_of_filter. by split.
Qed.

Lemma scan_directions_fuel dirs x0 y0 r c heap nbs :
  scan_directions dirs grid x0 y0 r c heap nbs ≠ OutOfFuel.
Proof.
  revert heap nbs. induction dirs as [|d dirs IH]; intros heap nbs; cbn [scan_directions];
    [done|].
  destruct (_ && _); [|apply IH].
  unfold grid_at. destruct (_ || _); [done|].
  destruct (grid !! _) as [row|]; [|done].
  destruct (row !! _) as [v|]; [|done].
  rewrite bind_Ok. destruct (v =? 0); apply IH.
Qed.

Lemma get_neighbors_fuel heap p : get_neighbors heap p grid ≠ OutOfFuel.
Proof.
  unfold get_neighbors, deref. destruct (heap !! p) as [n|]; [|done].
  rewrite bind_Ok. destruct (grid !! 0%nat); [|done]. apply scan_directions_fuel.
Qed.

Section Loop.

Variable addr : ptr → Z.

(** An iteration that goes on keeps the invariant, and every admitted
    neighbour is paid for by a new registry entry. *)
Lemma loop_body_Continue fuel0 st st' :
  Inv grid start goal (length (heap st)) st →
  loop_body addr fuel0 grid st = Continue st' →
  Inv grid start goal (length (heap st')) st' ∧
  (S (length (openSet st') + size (allNodes st)) =
   length (openSet st) + size (allNodes st'))%nat.
Proof.
  intros HI. unfold loop_body.
  destruct (top addr (openSet st)) as [current|] eqn:Htop; [|done].
  destruct (inv_open _ _ _ _ _ HI current (top_elem _ _ _ Htop)) as [cur Hcur].
  unfold deref at 1 2. rewrite (proj1 Hcur), (inv_goal _ _ _ _ _ HI).
  destruct (_ && _); [done|].
  destruct (get_neighbors (heap st) current grid) as [[heap' nbs]| |] eqn:Hn; [|done..].
  destruct (get_neighbors_Ok _ _ _ _ _ _ (proj1 Hcur) Hn) as [-> ->].
  set (cs := filter (admissible grid) (cand (x cur) (y cur) <$> directions)).
  set (st0 := {| heap := heap st ++ (fresh <$> cs); openSet := pop addr (openSet st);
                 allNodes := allNodes st |}).
  assert (Inv grid start goal (length (heap st)) st0) as HI0.
  { apply Inv_extend; [done|]. apply pop_elem. }
  destruct (visit_neighbors_inv current cur cs (length (heap st)) st0)
    as (st1 & Hv & HI1 & Hlen1 & Hm1); auto.
  - by apply registered_extend.
  - simpl. rewrite length_app, length_fmap. lia.
  - intros i c Hi. simpl. rewrite lookup_app_r by lia.
    replace (length (heap st) + i - length (heap st))%nat with i by lia.
    by rewrite list_lookup_fmap, Hi.
  - apply candidates_generated.
  - rewrite Hv. intros [= <-]. split.
    + replace (length (heap st1)) with (length (heap st) + length cs)%nat; [done|].
      rewrite Hlen1. simpl. rewrite length_app, length_fmap. lia.
    + pose proof (pop_length _ _ _ Htop). simpl in Hm1. lia.
Qed.

(** An iteration that leaves the loop: the open set is empty, the goal
    was popped, or [get_neighbors] indexed a malformed grid. *)
Lemma loop_body_Return fuel0 st r :
  Inv grid start goal (length (heap st)) st →
  loop_body addr fuel0 grid st = Return r →
  (openSet st = [] ∧ r = Ok []) ∨
  (∃ current cur, registered st current cur ∧ pos cur = goal ∧
                  r = reconstruct_path fuel0 (heap st) current) ∨
  (r = Undefined ∧ ¬ rectangular grid).
Proof.
  intros HI. unfold loop_body.
  destruct (top addr (openSet st)) as [current|] eqn:Htop.
  2:{ intros [= <-]. left. split; [by apply (top_None addr)|done]. }
  destruct (inv_open _ _ _ _ _ HI current (top_elem _ _ _ Htop)) as [cur Hcur].
  unfold deref at 1 2. rewrite (proj1 Hcur), (inv_goal _ _ _ _ _ HI).
  destruct (_ && _) eqn:Hgoal.
  { intros [= <-]. right; left. exists current, cur. split_and!; [done| |done].
    apply andb_true_iff in Hgoal as [Hx%Z.eqb_eq Hy%Z.eqb_eq].
    unfold pos. rewrite Hx, Hy. apply pos_fresh. }
  destruct (get_neighbors (heap st) current grid) as [[heap' nbs]| |] eqn:Hn.
  - destruct (get_neighbors_Ok _ _ _ _ _ _ (proj1 Hcur) Hn) as [-> ->].
    set (cs := filter (admissible grid) (cand (x cur) (y cur) <$> directions)).
    set (st0 := {| heap := heap st ++ (fresh <$> cs); openSet := pop addr (openSet st);
                   allNodes := allNodes st |}).
    assert (Inv grid start goal (length (heap st)) st0) as HI0.
    { apply Inv_extend; [done|]. apply pop_elem. }
    destruct (visit_neighbors_inv current cur cs (length (heap st)) st0)
      as (st1 & Hv & _); auto.
    + by apply registered_extend.
    + simpl. rewrite length_app, length_fmap. lia.
    + intros i c Hi. simpl. rewrite lookup_app_r by lia.
      replace (length (heap st) + i - length (heap st))%nat with i by lia.
      by rewrite list_lookup_fmap, Hi.
    + apply candidates_generated.
    + by rewrite Hv.
  - intros [= <-]. right; right. split; [done|].
    intros Hrect. destruct (get_neighbors_defined _ _ _ _ Hrect (proj1 Hcur)). congruence.
  - by apply get_neighbors_fuel in Hn.
Qed.

End Loop.

(** *** The registry is bounded by the grid *)

Lemma size_list_to_set_le (l : list (Z * Z)) :
  (size (list_to_set l : gset (Z * Z)) ≤ length l)%nat.
Proof.
  induction l as [|a l IH].
  - change (size (∅ : gset (Z * Z)) ≤ 0)%nat. by rewrite size_empty.
  - rewrite list_to_set_cons, size_union_alt, size_singleton. cbn [length].
    assert (size (list_to_set l ∖ {[a]} : gset (Z * Z))
            ≤ size (list_to_set l : gset (Z * Z)))%nat as Hs
      by (apply subseteq_size, subseteq_difference_l; done).
    lia.
Qed.

Lemma walkable_cells c : walkable grid c → c ∈ cells grid.
Proof.
  destruct c as [i j]. intros [[Hi Hj] _]. simpl in *.
  apply list_elem_of_In, in_prod; apply list_elem_of_In, elem_of_seqZ; lia.
Qed.

Lemma length_cells :
  length (cells grid) = (length grid * length (default [] (grid !! 0%nat)))%nat.
Proof. unfold cells. by rewrite length_prod, !length_seqZ, !Nat2Z.id. Qed.

Lemma registry_size W st :
  Inv grid start goal W st →
  (size (allNodes st) ≤ S (length grid * length (default [] (grid !! 0%nat))))%nat.
Proof.
  intros HI. rewrite <- length_cells.
  rewrite <- (size_dom (D := gset (Z * Z))).
  etrans; [apply (subseteq_size _ ({[start]} ∪ list_to_set (cells grid)))|].
  - intros c [p Hp]%elem_of_dom.
    destruct (inv_reg _ _ _ _ _ HI c p Hp) as (_ & n & _ & <- & _ & [[_ ->]|Hok]).
    + rewrite pos_fresh. set_solver.
    + destruct Hok as (q & m & _ & _ & _ & _ & _ & Hadm).
      apply elem_of_union_r, elem_of_list_to_set, walkable_cells.
      by apply admissible_walkable.
  - rewrite size_union_alt, size_singleton.
    pose proof (size_list_to_set_le (cells grid)) as Hle.
    assert (size (list_to_set (cells grid) ∖ {[start]} : gset (Z * Z))
            ≤ size (list_to_set (cells grid) : gset (Z * Z)))%nat as Hs
      by (apply subseteq_size, subseteq_difference_l; done).
    lia.
Qed.

(** *** reconstruct_path walks a trail *)

Lemma walk_parents_trail W st :
  Inv grid start goal W st →
  ∀ k fuel p n acc,
    registered st p n → g n = Z.of_nat k → (k < fuel)%nat →
    ∃ P, walk_parents fuel (heap st) (Some p) acc = Ok (acc ++ reverse P) ∧
         trail grid start st P (pos n) (g n).
Proof.
  intros HI. induction k as [|k IH]; intros fuel p n acc Hreg Hg Hfuel;
    (destruct fuel as [|fuel]; [lia|]); cbn [walk_parents]; unfold deref;
    rewrite (proj1 Hreg), bind_Ok;
    destruct (registered_inv _ _ _ _ HI Hreg) as (_ & _ & [[-> ->]|Hok]).
  - exists [start]. split; [destruct start, fuel; reflexivity|].
    rewrite pos_fresh. apply trail_start.
    unfold gcost. destruct Hreg as [Hp Hc]. rewrite pos_fresh in Hc.
    rewrite Hc. simpl. by rewrite Hp.
  - destruct Hok as (q & m & _ & _ & Hm & Hgn & _). lia.
  - simpl in Hg. lia.
  - destruct Hok as (q & m & Hpar & Hq & Hm & Hgn & Hgen & Hadm).
    rewrite Hpar.
    destruct (IH fuel q m (acc ++ [(x n, y n)])) as (P & Hwalk & Htrail);
      [done|lia|lia|].
    exists (P ++ [pos n]). split.
    + rewrite Hwalk, reverse_snoc, <- app_assoc. done.
    + rewrite Hgn. apply (trail_snoc _ _ _ P (pos m)); auto.
      unfold gcost. rewrite (proj2 Hreg). simpl. rewrite (proj1 Hreg). simpl.
      by rewrite Hgn.
Qed.

Lemma reconstruct_path_trail W st fuel p n :
  Inv grid start goal W st → registered st p n →
  (S (length grid * length (default [] (grid !! 0%nat))) ≤ fuel)%nat →
  ∃ P, reconstruct_path fuel (heap st) p = Ok P ∧ trail grid start st P (pos n) (g n).
Proof.
  intros HI Hreg Hfuel.
  pose proof (registry_size _ _ HI) as Hsize.
  pose proof (registered_g_nonneg _ _ _ _ HI Hreg) as Hg0.
  destruct (registered_inv _ _ _ _ HI Hreg) as (_ & Hgb & _).
  destruct (walk_parents_trail _ _ HI (Z.to_nat (g n)) fuel p n [] Hreg)
    as (P & Hwalk & Htrail); [lia|lia|].
  exists P. split; [|done].
  unfold reconstruct_path. rewrite Hwalk, bind_Ok. simpl.
  by rewrite reverse_involutive.
Qed.

(** *** What a trail is *)

Section Trail.

Variable st : state.

Lemma trail_head P c k : trail grid start st P c k → head P = Some start.
Proof. induction 1 as [|P a b k HP IH]; [done|]. by destruct P. Qed.

Lemma trail_last P c k : trail grid start st P c k → last P = Some c.
Proof. destruct 1; [done|apply last_snoc]. Qed.

Lemma trail_length P c k : trail grid start st P c k → Z.of_nat (length P) = k + 1.
Proof.
  induction 1 as [|P a b k HP IH]; [done|]. rewrite length_app. simpl. lia.
Qed.

Lemma trail_gcost P c k :
  trail grid start st P c k → ∀ c', c' ∈ P → ∃ j, gcost st c' = Some j ∧ 0 ≤ j ≤ k.
Proof.
  induction 1 as [Hs|P a b k HP IH Hgen Hadm Hb]; intros c'.
  - intros ->%list_elem_of_singleton. exists 0. split; [done|lia].
  - pose proof (trail_length _ _ _ HP) as Hlen.
    intros [Hc| ->%list_elem_of_singleton]%elem_of_app.
    + destruct (IH c' Hc) as (j & Hj & Hle). exists j. split; [done|lia].
    + exists (k + 1). split; [done|lia].
Qed.

Lemma trail_elem P c k :
  trail grid start st P c k → ∀ c', c' ∈ P → c' = start ∨ admissible grid c'.
Proof.
  induction 1 as [Hs|P a b k HP IH Hgen Hadm Hb]; intros c'.
  - intros ->%list_elem_of_singleton. by left.
  - intros [Hc| ->%list_elem_of_singleton]%elem_of_app; [auto|by right].
Qed.

(** No coordinate twice: costs strictly grow along the trail. *)
Lemma trail_NoDup P c k : trail grid start st P c k → NoDup P.
Proof.
  induction 1 as [Hs|P a b k HP IH Hgen Hadm Hb].
  - apply NoDup_singleton.
  - apply NoDup_app. split_and!; [done| |apply NoDup_singleton].
    intros c' Hc ->%list_elem_of_singleton.
    destruct (trail_gcost _ _ _ HP b Hc) as (j & Hj & Hle).
    rewrite Hb in Hj. injection Hj as <-. lia.
Qed.

Lemma trail_tail P c k : trail grid start st P c k → Forall (admissible grid) (tail P).
Proof.
  induction 1 as [Hs|P a b k HP IH Hgen Hadm Hb]; [constructor|].
  pose proof (trail_head _ _ _ HP) as Hh.
  destruct P as [|c0 P]; [done|]. simpl in *.
  apply Forall_app. split; [done|]. by constructor.
Qed.

Lemma trail_steps P c k :
  trail grid start st P c k →
  ∀ i a b, P !! i = Some a → P !! S i = Some b → generated a b.
Proof.
  induction 1 as [Hs|P a0 b0 k HP IH Hgen Hadm Hb]; intros i a b Ha Hb'.
  - done.
  - apply lookup_snoc_Some in Hb' as [[Hlt Hb']|[Hlen ->]].
    + rewrite lookup_app_l in Ha by lia. eauto.
    + rewrite lookup_app_l in Ha by lia.
      pose proof (trail_last _ _ _ HP) as Hl. rewrite last_lookup in Hl.
      replace (pred (length P)) with i in Hl by lia. congruence.
Qed.

End Trail.

(** An accepted candidate is a true orthogonal neighbour: the range check
    rules out every wrapped coordinate. *)
Lemma generated_adjacent a b :
  in_int a.1 → in_int a.2 → generated a b → admissible grid b → adjacent a b.
Proof.
  intros Hx Hy (d & -> & Hd)%list_elem_of_fmap (Hi & Hj & _).
  pose proof (rows_le_int grid) as Hr. pose proof (cols_le_int grid) as Hc.
  unfold cand in *. simpl in Hi, Hj.
  assert (-1 ≤ d.1 ≤ 1 ∧ -1 ≤ d.2 ≤ 1) as [Hd1 Hd2].
  { unfold directions in Hd. rewrite !elem_of_cons, elem_of_nil in Hd.
    destruct Hd as [->|[->|[->|[->|[]]]]]; simpl; lia. }
  rewrite (wrap_step_exact (rows grid)), (wrap_step_exact (cols grid)) by done.
  unfold adjacent, steps, directions in *. rewrite !elem_of_cons, elem_of_nil in *.
  destruct Hd as [->|[->|[->|[->|[]]]]]; simpl; rewrite ?Z.add_0_r; auto.
Qed.

Lemma trail_route st P c k :
  in_int start.1 → in_int start.2 → trail grid start st P c k →
  route grid start c P ∧ NoDup P ∧ Z.of_nat (length P) = k + 1.
Proof.
  intros Hx Hy HP. split_and!.
  - split_and!.
    + by eapply trail_head.
    + by eapply trail_last.
    + intros i a b Ha Hb.
      assert (in_int a.1 ∧ in_int a.2) as [Ha1 Ha2].
      { destruct (trail_elem _ _ _ _ HP a) as [->|Hadm];
          [by eapply list_elem_of_lookup_2| done |by apply (admissible_in_int grid)]. }
      apply generated_adjacent; [done|done|by eapply trail_steps|].
      pose proof (trail_tail _ _ _ _ HP) as Ht.
      destruct P as [|c0 P]; [done|]. simpl in *.
      eapply Forall_forall; [exact Ht|]. by eapply list_elem_of_lookup_2.
    + eapply Forall_impl; [by eapply trail_tail|]. apply admissible_walkable.
  - by eapply trail_NoDup.
  - by eapply trail_length.
Qed.

End Invariant.

(** ** Fuel *)

Lemma walk_parents_mono fuel : ∀ fuel' heap node acc,
  (fuel ≤ fuel')%nat → walk_parents fuel heap node acc ≠ OutOfFuel →
  walk_parents fuel' heap node acc = walk_parents fuel heap node acc.
Proof.
  induction fuel as [|fuel IH]; intros fuel' heap node acc Hle Hne.
  - destruct node; [done|]. by destruct fuel'.
  - destruct fuel' as [|fuel']; [lia|].
    destruct node as [p|]; [|done]. cbn [walk_parents] in *.
    destruct (deref heap p) as [n| |]; [|done..].
    rewrite bind_Ok in *. apply IH; [lia|done].
Qed.

Lemma reconstruct_path_mono fuel fuel' heap node :
  (fuel ≤ fuel')%nat → reconstruct_path fuel heap node ≠ OutOfFuel →
  reconstruct_path fuel' heap node = reconstruct_path fuel heap node.
Proof.
  unfold reconstruct_path. intros Hle Hne.
  rewrite (walk_parents_mono fuel fuel'); [done|done|].
  intros E. by rewrite E in Hne.
Qed.

Section Fuel.

Variable addr : ptr → Z.
Variable grid : Grid.

Lemma loop_body_mono fuel fuel' st :
  (fuel ≤ fuel')%nat → loop_body addr fuel grid st ≠ Return OutOfFuel →
  loop_body addr fuel' grid st = loop_body addr fuel grid st.
Proof.
  intros Hle. unfold loop_body.
  destruct (top addr (openSet st)) as [current|]; [|done].
  destruct (deref (heap st) current) as [cur| |]; [|done..].
  destruct (deref (heap st) goalNode) as [goalN| |]; [|done..].
  destruct (_ && _); [|done].
  intros Hne. f_equal. apply reconstruct_path_mono; [done|congruence].
Qed.

Lemma main_loop_mono fuel0 fuel0' : (fuel0 ≤ fuel0')%nat →
  ∀ fuel fuel' st, (fuel ≤ fuel')%nat →
    main_loop addr fuel0 fuel grid st ≠ OutOfFuel →
    main_loop addr fuel0' fuel' grid st = main_loop addr fuel0 fuel grid st.
Proof.
  intros Hle0. induction fuel as [|fuel IH]; intros fuel' st Hle Hne; [done|].
  destruct fuel' as [|fuel']; [lia|]. cbn [main_loop] in *.
  rewrite (loop_body_mono fuel0 fuel0' st Hle0).
  - destruct (loop_body addr fuel0 grid st) as [st'|r]; [|done].
    apply IH; [lia|done].
  - intros E. by rewrite E in Hne.
Qed.

End Fuel.

(** ** The whole search *)

Section Run.

Variable addr : ptr → Z.
Variable grid : Grid.
Variables start goal : coord.

(** Every run with enough fuel ends in one of three ways: the empty
    sequence, a trail to the goal, or an index outside a malformed grid. *)
Lemma main_loop_post fuel0 :
  (S (length grid * length (default [] (grid !! 0%nat))) ≤ fuel0)%nat →
  ∀ fuel st,
    Inv grid start goal (length (heap st)) st →
    (length (openSet st) + S (length grid * length (default [] (grid !! 0%nat)))
     < fuel + size (allNodes st))%nat →
    main_loop addr fuel0 fuel grid st = Ok [] ∨
    (∃ st' P k, main_loop addr fuel0 fuel grid st = Ok P ∧ trail grid start st' P goal k) ∨
    (main_loop addr fuel0 fuel grid st = Undefined ∧ ¬ rectangular grid).
Proof.
  intros Hfuel0. induction fuel as [|fuel IH]; intros st HI Hm.
  - pose proof (registry_size _ _ _ _ _ HI). lia.
  - cbn [main_loop]. destruct (loop_body addr fuel0 grid st) as [st'|r] eqn:Hbody.
    + destruct (loop_body_Continue _ _ _ _ _ _ _ HI Hbody) as [HI' Hm'].
      apply IH; [done|lia].
    + destruct (loop_body_Return _ _ _ _ _ _ _ HI Hbody)
        as [[_ ->]|[(current & cur & Hreg & Hpos & ->)|[-> Hbad]]]; [by left| |by right; right].
      right; left.
      destruct (reconstruct_path_trail _ _ _ _ _ _ _ _ HI Hreg Hfuel0) as (P & -> & HP).
      rewrite Hpos in HP. eauto.
Qed.

Lemma a_star_fuel_post fuel :
  (fuel_bound grid ≤ fuel)%nat →
  a_star_fuel addr fuel grid start goal = Ok [] ∨
  (∃ st P k, a_star_fuel addr fuel grid start goal = Ok P ∧ trail grid start st P goal k) ∨
  (a_star_fuel addr fuel grid start goal = Undefined ∧ ¬ rectangular grid).
Proof.
  unfold fuel_bound. intros Hfuel. apply main_loop_post; [lia|apply Inv_init|].
  simpl. rewrite map_size_singleton. lia.
Qed.

Lemma a_star_fuel_halts fuel :
  (fuel_bound grid ≤ fuel)%nat → a_star_fuel addr fuel grid start goal ≠ OutOfFuel.
Proof.
  intros Hfuel.
  destruct (a_star_fuel_post fuel Hfuel) as [->|[(st & P & k & -> & _)|[-> _]]]; done.
Qed.

(** The goal test on the start node comes first; the grid is not read. *)
Lemma loop_body_start_is_goal fuel p :
  loop_body addr (S fuel) grid (init_state p p) = Return (Ok [p]).
Proof.
  destruct p as [i j]. unfold loop_body. simpl. rewrite !Z.eqb_refl.
  destruct fuel; reflexivity.
Qed.

Lemma a_star_fuel_start_is_goal fuel p : a_star_fuel addr (S fuel) grid p p = Ok [p].
Proof.
  unfold a_star_fuel. cbn [main_loop]. by rewrite loop_body_start_is_goal.
Qed.

End Run.

Lemma iterate_main_loop addr grid n : ∀ st st',
  iterate addr n grid st = Some st' →
  main_loop addr (fuel_bound grid) n grid st = OutOfFuel.
Proof.
  induction n as [|n IH]; intros st st'; cbn [iterate main_loop]; [done|].
  destruct (loop_body addr (fuel_bound grid) grid st); [apply IH|done].
Qed.

(** ** get_neighbors is exact on well-formed grids *)

Section Neighbors.

Variable grid : Grid.
Variables x0 y0 : Z.
Hypothesis rows_fit : Z.of_nat (length grid) ≤ int_max.
Hypothesis cols_fit : Z.of_nat (length (default [] (grid !! 0%nat))) ≤ int_max.
Hypothesis x0_int : in_int x0.
Hypothesis y0_int : in_int y0.

Lemma rows_exact : rows grid = Z.of_nat (length grid).
Proof. apply wrap_id. unfold in_int, int_min. lia. Qed.

Lemma cols_exact : cols grid = Z.of_nat (length (default [] (grid !! 0%nat))).
Proof. apply wrap_id. unfold in_int, int_min. lia. Qed.

Lemma cand_exact d :
  -1 ≤ d.1 ≤ 1 → -1 ≤ d.2 ≤ 1 →
  (admissible grid (cand x0 y0 d) ↔ walkable grid (x0 + d.1, y0 + d.2)) ∧
  (admissible grid (cand x0 y0 d) → cand x0 y0 d = (x0 + d.1, y0 + d.2)).
Proof.
  intros Hd1 Hd2.
  assert (admissible grid (cand x0 y0 d) → cand x0 y0 d = (x0 + d.1, y0 + d.2)) as Hexact.
  { intros (Hi & Hj & _). unfold cand in *. simpl in Hi, Hj.
    rewrite (wrap_step_exact (rows grid)), (wrap_step_exact (cols grid));
      auto using rows_le_int, cols_le_int. }
  split; [|done]. split.
  - intros Hadm. rewrite <- (Hexact Hadm). by apply admissible_walkable.
  - intros [[Hi Hj] Hc]. simpl in Hi, Hj.
    assert (cand x0 y0 d = (x0 + d.1, y0 + d.2)) as ->.
    { unfold cand. rewrite !wrap_id; [done|..]; unfold in_int, int_min in *; lia. }
    unfold admissible. rewrite rows_exact, cols_exact. simpl. split_and!; try lia.
    unfold cell in Hc. rewrite grid_at_nonneg by lia. simpl in Hc.
    destruct (grid !! Z.to_nat (x0 + d.1)) as [row|]; [|done]. simpl in Hc.
    by rewrite Hc.
Qed.

Lemma filter_cand_exact dirs :
  Forall (λ d, -1 ≤ d.1 ≤ 1 ∧ -1 ≤ d.2 ≤ 1) dirs →
  filter (admissible grid) (cand x0 y0 <$> dirs) =
  filter (walkable grid) ((λ d, (x0 + d.1, y0 + d.2)) <$> dirs).
Proof.
  induction 1 as [|d dirs [Hd1 Hd2] _ IH]; [done|].
  rewrite !fmap_cons, !filter_cons.
  destruct (cand_exact d Hd1 Hd2) as [Hiff Hexact].
  destruct (decide (admissible grid (cand x0 y0 d))) as [Hadm|Hadm].
  - rewrite decide_True by (by apply Hiff). by rewrite IH, (Hexact Hadm).
  - rewrite decide_False by (by rewrite <- Hiff). done.
Qed.

Lemma candidates_exact :
  filter (admissible grid) (cand x0 y0 <$> directions) =
  filter (walkable grid) (steps (x0, y0)).
Proof.
  rewrite filter_cand_exact.
  - unfold directions, steps. simpl. by rewrite !Z.add_0_r.
  - unfold directions. repeat constructor; simpl; lia.
Qed.

End Neighbors.

(** * The claims *)

(** C8 (as amended).  On a non-empty rectangular grid whose dimensions fit
    in an [int], [get_neighbors] allocates one fresh node for exactly the
    walkable cells one orthogonal step from the node, in the order up,
    down, left, right, and returns pointers to them; there are at most
    four. *)
Theorem get_neighbors_exact (heap : list Node) (p : ptr) (n : Node) (grid : Grid) :
  rectangular grid →
  Z.of_nat (length grid) ≤ int_max →
  Z.of_nat (length (default [] (grid !! 0%nat))) ≤ int_max →
  heap !! p = Some n → in_int (x n) → in_int (y n) →
  get_neighbors heap p grid =
    Ok (heap ++ (fresh <$> filter (walkable grid) (steps (pos n))),
        seq (length heap) (length (filter (walkable grid) (steps (pos n))))) ∧
  (length (filter (walkable grid) (steps (pos n))) ≤ 4)%nat.
Proof.
  intros Hrect Hrows Hcols Hp Hx Hy. split.
  - destruct (get_neighbors_defined heap p n grid Hrect Hp) as [[heap' nbs] Hres].
    rewrite Hres.
    destruct (get_neighbors_Ok _ _ _ _ _ _ Hp Hres) as [-> ->].
    by rewrite candidates_exact.
  - etrans; [apply length_filter|]. done.
Qed.

Lemma get_neighbors_exact_witness :
  get_neighbors [fresh (2, 2)] 0%nat ring =
    Ok ([fresh (2, 2)] ++ (fresh <$> filter (walkable ring) (steps (2, 2))),
        seq 1 (length (filter (walkable ring) (steps (2, 2))))) ∧
  (length (filter (walkable ring) (steps (2%Z, 2%Z))) ≤ 4)%nat.
Proof.
  apply (get_neighbors_exact [fresh (2, 2)] 0%nat (fresh (2, 2)) ring).
  - split; [done|]. intros row Hrow. unfold ring in Hrow.
    rewrite !elem_of_cons, elem_of_nil in Hrow. by destruct Hrow as [->|[->|[->|[]]]].
  - unfold int_max. simpl. lia.
  - unfold int_max. simpl. lia.
  - reflexivity.
  - unfold in_int, int_min, int_max. simpl. lia.
  - unfold in_int, int_min, int_max. simpl. lia.
Defined.

(** C8 as stated fails: on the empty grid, and on a grid with a short row,
    [get_neighbors] indexes a vector out of range. *)
Lemma get_neighbors_every_grid_fails :
  ¬ (∀ (heap : list Node) (p : ptr) (n : Node) (grid : Grid),
       heap !! p = Some n → in_int (x n) → in_int (y n) →
       get_neighbors heap p grid =
         Ok (heap ++ (fresh <$> filter (walkable grid) (steps (pos n))),
             seq (length heap) (length (filter (walkable grid) (steps (pos n)))))).
Proof.
  intros H.
  assert (in_int 0 ∧ in_int 1) as [H0 H1] by (unfold in_int, int_min, int_max; lia).
  specialize (H [fresh (0, 1)] 0%nat (fresh (0, 1)) [] eq_refl H0 H1).
  discriminate H.
Qed.

(** C6.  When start and goal coincide the search returns exactly [[start]]:
    the first node popped is the start node, its cost is 0, and the goal
    test succeeds in the first iteration. *)
Theorem a_star_start_equals_goal (addr : ptr → Z) (grid : Grid) (p : coord) :
  a_star addr grid p p = Ok [p] ∧
  top addr (openSet (init_state p p)) = Some startNode ∧
  g <$> heap (init_state p p) !! startNode = Some 0 ∧
  loop_body addr (fuel_bound grid) grid (init_state p p) = Return (Ok [p]).
Proof.
  split_and!.
  - apply a_star_fuel_start_is_goal.
  - done.
  - done.
  - apply loop_body_start_is_goal.
Qed.

(** C9.  The same holds when the coordinate is outside the grid or on a
    blocked cell, and the result does not depend on the grid at all: the
    goal test comes before [get_neighbors], the only reader of the grid. *)
Theorem a_star_start_equals_goal_unchecked (addr : ptr → Z) (grid : Grid) (p : coord) :
  ¬ walkable grid p →
  a_star addr grid p p = Ok [p] ∧
  ∀ grid', a_star addr grid' p p = a_star addr grid p p.
Proof.
  intros _. split.
  - apply a_star_fuel_start_is_goal.
  - intros grid'. unfold a_star, fuel_bound. by rewrite !a_star_fuel_start_is_goal.
Qed.

Lemma a_star_start_equals_goal_unchecked_witness :
  a_star up [[1]] (5, 5) (5, 5) = Ok [(5, 5)] ∧
  ∀ grid', a_star up grid' (5, 5) (5, 5) = a_star up [[1]] (5, 5) (5, 5).
Proof.
  apply (a_star_start_equals_goal_unchecked up [[1]] (5, 5)).
  intros [[H _] _]. simpl in H. lia.
Defined.

(** C4.  The search terminates on every grid: [fuel_bound grid] iterations
    always suffice, more fuel changes nothing, and the main loop cannot
    complete [fuel_bound grid] iterations. *)
Theorem a_star_terminates (addr : ptr → Z) (grid : Grid) (start goal : coord) (k : nat) :
  a_star addr grid start goal ≠ OutOfFuel ∧
  a_star_fuel addr (fuel_bound grid + k) grid start goal = a_star addr grid start goal ∧
  iterate addr (fuel_bound grid) grid (init_state start goal) = None.
Proof.
  pose proof (a_star_fuel_halts addr grid start goal (fuel_bound grid) (le_n _)) as Hhalt.
  split_and!.
  - done.
  - apply main_loop_mono; [lia|lia|done].
  - destruct (iterate addr (fuel_bound grid) grid (init_state start goal)) as [st|] eqn:Hit;
      [|done].
    by apply iterate_main_loop in Hit.
Qed.

(** C10.  On a non-empty rectangular grid no grid access is out of range,
    whatever the start and the goal: [get_neighbors] is defined at every
    node and the search returns a sequence. *)
Theorem a_star_grid_access_in_bounds (addr : ptr → Z) (grid : Grid) (start goal : coord) :
  rectangular grid →
  (∀ heap p n, heap !! p = Some n → get_neighbors heap p grid ≠ Undefined) ∧
  ∃ P, a_star addr grid start goal = Ok P.
Proof.
  intros Hrect. split.
  - intros heap p n Hp. destruct (get_neighbors_defined heap p n grid Hrect Hp) as [res ->].
    done.
  - destruct (a_star_fuel_post addr grid start goal (fuel_bound grid) (le_n _))
      as [H|[(st & P & k & H & _)|[_ Hbad]]]; [by exists []|by exists P|done].
Qed.

Lemma ring_rectangular : rectangular ring.
Proof.
  split; [done|]. intros row Hrow. unfold ring in Hrow.
  rewrite !elem_of_cons, elem_of_nil in Hrow. by destruct Hrow as [->|[->|[->|[]]]].
Defined.

Lemma a_star_grid_access_in_bounds_witness :
  (∀ heap p n, heap !! p = Some n → get_neighbors heap p ring ≠ Undefined) ∧
  ∃ P, a_star up ring (-1, 7) (1, 1) = Ok P.
Proof. apply (a_star_grid_access_in_bounds up ring (-1, 7) (1, 1)), ring_rectangular. Defined.

(** C5 (as amended).  On a non-empty rectangular grid, in a non-empty
    returned path every consecutive pair is orthogonally adjacent, every
    coordinate after the first is a walkable cell, the first is the start
    (walkable only if the caller made it so), and no coordinate occurs
    twice.  On other grids [get_neighbors] can index out of range and
    nothing is promised. *)
Theorem a_star_path_valid (addr : ptr → Z) (grid : Grid) (start goal : coord)
    (P : list coord) :
  rectangular grid →
  in_int start.1 → in_int start.2 →
  a_star addr grid start goal = Ok P → P ≠ [] →
  stepwise P ∧ head P = Some start ∧ Forall (walkable grid) (tail P) ∧
  (walkable grid start → Forall (walkable grid) P) ∧ NoDup P.
Proof.
  intros _ Hx Hy Hres Hne.
  destruct (a_star_fuel_post addr grid start goal (fuel_bound grid) (le_n _))
    as [H|[(st & P' & k & H & Htrail)|[H _]]]; unfold a_star in Hres; rewrite H in Hres;
    [congruence| |done].
  injection Hres as ->.
  destruct (trail_route grid start st P goal k Hx Hy Htrail)
    as ((Hhead & _ & Hstep & Htail) & Hnodup & _).
  split_and!; auto.
  intros Hstart. destruct P as [|c P]; [done|].
  injection Hhead as ->. by constructor.
Qed.

Lemma a_star_path_valid_witness :
  let P := [(0, 0); (1, 0); (2, 0); (2, 1); (2, 2)] in
  stepwise P ∧ head P = Some (0, 0) ∧ Forall (walkable ring) (tail P) ∧
  (walkable ring (0, 0) → Forall (walkable ring) P) ∧ NoDup P.
Proof.
  apply (a_star_path_valid up ring (0, 0) (2, 2)).
  - apply ring_rectangular.
  - unfold in_int, int_min, int_max. simpl. lia.
  - unfold in_int, int_min, int_max. simpl. lia.
  - vm_compute. reflexivity.
  - discriminate.
Defined.

(** C5 as stated fails: the start is never checked against the grid, so a
    returned path can begin on a blocked cell. *)
Lemma a_star_path_from_blocked_start :
  ¬ (∀ (addr : ptr → Z) (grid : Grid) (start goal : coord) (P : list coord),
       a_star addr grid start goal = Ok P → P ≠ [] →
       stepwise P ∧ Forall (walkable grid) P ∧ NoDup P).
Proof.
  intros H.
  destruct (H up [[1; 0]] (0, 0) (0, 1) [(0, 0); (0, 1)]) as (_ & Hw & _).
  - vm_compute. reflexivity.
  - discriminate.
  - apply Forall_cons in Hw as [[_ Hc] _]. discriminate Hc.
Qed.

(** C7 (as amended).  On a non-empty rectangular grid the search returns a
    sequence that is either empty or a complete route from start to goal;
    when the goal is unreachable it is empty. *)
Theorem a_star_route_or_empty (addr : ptr → Z) (grid : Grid) (start goal : coord) :
  rectangular grid → in_int start.1 → in_int start.2 →
  ∃ P, a_star addr grid start goal = Ok P ∧
       (P = [] ∨ route grid start goal P) ∧
       (¬ reachable grid start goal → P = []).
Proof.
  intros Hrect Hx Hy.
  destruct (a_star_fuel_post addr grid start goal (fuel_bound grid) (le_n _))
    as [H|[(st & P & k & H & Htrail)|[_ Hbad]]]; [| |done].
  - exists []. auto.
  - destruct (trail_route grid start st P goal k Hx Hy Htrail) as (Hroute & _).
    exists P. split_and!; [done|by right|].
    intros Hunreach. destruct Hunreach. by exists P.
Qed.

Lemma a_star_route_or_empty_witness :
  ∃ P, a_star up ring (0, 0) (1, 1) = Ok P ∧
       (P = [] ∨ route ring (0, 0) (1, 1) P) ∧
       (¬ reachable ring (0, 0) (1, 1) → P = []).
Proof.
  apply (a_star_route_or_empty up ring (0, 0) (1, 1)).
  - apply ring_rectangular.
  - unfold in_int, int_min, int_max. simpl. lia.
  - unfold in_int, int_min, int_max. simpl. lia.
Defined.

(** C7 as stated fails: with an empty grid and start different from goal,
    [get_neighbors] reads [grid[0]] of an empty vector; the outcome is
    neither a path nor the empty sequence. *)
Lemma a_star_empty_grid_undefined :
  ¬ (∀ (addr : ptr → Z) (grid : Grid) (start goal : coord),
       ∃ P, a_star addr grid start goal = Ok P ∧ (P = [] ∨ route grid start goal P)).
Proof.
  intros H. destruct (H up [] (0, 0) (0, 1)) as (P & HP & _).
  vm_compute in HP. discriminate HP.
Qed.

(** ** Where the code departs from its own comments *)

(** The admission test compares [tentative_g] with the [g] of the node
    [get_neighbors] has just allocated, which is 0.  A coordinate that is
    already registered is therefore never admitted again, whatever cost
    the registry holds for it. *)
Lemma visit_neighbor_known st current cur nb c gn :
  heap st !! current = Some cur → 0 ≤ g cur →
  heap st !! nb = Some (fresh c) → heap st !! goalNode = Some gn →
  is_Some (allNodes st !! c) →
  visit_neighbor current st nb = Ok st.
Proof.
  intros Hcur Hg Hnb Hgoal [p Hc]. unfold visit_neighbor, deref.
  rewrite Hcur, bind_Ok, Hnb, bind_Ok, Hgoal, bind_Ok, pos_fresh, Hc.
  rewrite bool_decide_eq_false_2 by done.
  replace (g cur + 1 <? g (fresh c)) with false by (simpl; lia). done.
Qed.

(** A coordinate absent from the registry is admitted, with the fields the
    source assigns. *)
Lemma visit_neighbor_new st current cur nb c gn :
  heap st !! current = Some cur →
  heap st !! nb = Some (fresh c) → heap st !! goalNode = Some gn →
  allNodes st !! c = None →
  visit_neighbor current st nb =
    Ok {| heap := <[nb := {| x := c.1; y := c.2; g := g cur + 1;
                             h := heuristic (fresh c) gn;
                             f := g cur + 1 + heuristic (fresh c) gn;
                             parent := Some current |}]> (heap st);
          openSet := openSet st ++ [nb];
          allNodes := <[c := nb]> (allNodes st) |}.
Proof.
  intros Hcur Hnb Hgoal Hc. unfold visit_neighbor, deref.
  rewrite Hcur, bind_Ok, Hnb, bind_Ok, Hgoal, bind_Ok, pos_fresh, Hc.
  rewrite bool_decide_eq_true_2 by done. done.
Qed.

(** C2 (code departs).  The open set is ordered by the address of the
    nodes, not by [f].  On the one-row grid, starting in the middle,
    whichever of the two neighbours lies lower in memory is removed next;
    placing the goal on the other side makes it the one with the larger
    [f]. *)
Theorem open_set_not_ordered_by_f (addr : ptr → Z) :
  addr 2%nat ≠ addr 3%nat →
  ∃ goal cur q st nc nq,
    iterate addr 1 [[0; 0; 0]] (init_state (0, 1) goal) = Some st ∧
    top addr (openSet st) = Some cur ∧ q ∈ openSet st ∧
    heap st !! cur = Some nc ∧ heap st !! q = Some nq ∧ f nq < f nc.
Proof.
  intros Hne. destruct (Z.ltb_spec (addr 3%nat) (addr 2%nat)) as [Hlt|Hge].
  - exists (0, 0), 3%nat, 2%nat. do 3 eexists. split_and!.
    + vm_compute. reflexivity.
    + simpl. by rewrite (proj2 (Z.ltb_lt _ _) Hlt).
    + simpl. set_solver.
    + reflexivity.
    + reflexivity.
    + simpl. lia.
  - exists (0, 2), 2%nat, 3%nat. do 3 eexists. split_and!.
    + vm_compute. reflexivity.
    + simpl. by rewrite (proj2 (Z.ltb_ge _ _) Hge).
    + simpl. set_solver.
    + reflexivity.
    + reflexivity.
    + simpl. lia.
Qed.

Lemma open_set_not_ordered_by_f_witness :
  ∃ goal cur q st nc nq,
    iterate up 1 [[0; 0; 0]] (init_state (0, 1) goal) = Some st ∧
    top up (openSet st) = Some cur ∧ q ∈ openSet st ∧
    heap st !! cur = Some nc ∧ heap st !! q = Some nq ∧ f nq < f nc.
Proof. apply (open_set_not_ordered_by_f up). unfold up. simpl. lia. Defined.

(** What the comparator does guarantee. *)
Lemma open_set_ordered_by_address addr st cur q :
  top addr (openSet st) = Some cur → q ∈ openSet st → addr cur ≤ addr q.
Proof. apply top_least. Qed.

(** C1 (code departs).  On the ring, with a heap that grows downwards, the
    search returns a route of 6 steps to a goal 2 steps away. *)
Theorem a_star_longer_than_shortest :
  a_star down ring (0, 0) (2, 0) =
    Ok [(0, 0); (0, 1); (0, 2); (1, 2); (2, 2); (2, 1); (2, 0)] ∧
  route ring (0, 0) (2, 0) [(0, 0); (1, 0); (2, 0)] ∧
  walkable ring (0, 0) ∧ walkable ring (2, 0).
Proof.
  split_and!.
  - vm_compute. reflexivity.
  - split_and!; [done|done| |repeat constructor; compute_done].
    intros i a b Ha Hb. destruct i as [|[|i]]; simplify_eq/=; compute_done.
  - compute_done.
  - compute_done.
Qed.

(** C3 (code departs).  On the walled ring, with a heap that grows
    downwards, after 7 iterations the node popped is (1,0) with cost 1;
    its walkable neighbour (2,0) is registered with cost 6.  The cost
    through (1,0) would be 2, yet the iteration pushes nothing and the
    registry still holds 6. *)
Theorem registry_keeps_first_cost :
  ∃ st st',
    iterate down 7 walled (init_state (0, 0) (0, 4)) = Some st ∧
    top down (openSet st) = Some 2%nat ∧
    pos <$> heap st !! 2%nat = Some (1, 0) ∧
    g <$> heap st !! 2%nat = Some 1 ∧
    adjacent (1, 0) (2, 0) ∧ walkable walled (2, 0) ∧
    gcost st (2, 0) = Some 6 ∧
    loop_body down (fuel_bound walled) walled st = Continue st' ∧
    openSet st' = pop down (openSet st) ∧
    gcost st' (2, 0) = Some 6.
Proof.
  do 2 eexists. split_and!.
  - vm_compute. reflexivity.
  - vm_compute. reflexivity.
  - vm_compute. reflexivity.
  - vm_compute. reflexivity.
  - compute_done.
  - compute_done.
  - vm_compute. reflexivity.
  - vm_compute. reflexivity.
  - vm_compute. reflexivity.
  - vm_compute. reflexivity.
Qed.

(** * Further properties of the code *)

(** ** heuristic *)

Lemma manhattan_step a b d : adjacent a b → manhattan a d ≤ 1 + manhattan b d.
Proof.
  destruct a as [a1 a2], b as [b1 b2], d as [d1 d2].
  unfold adjacent, steps, manhattan. rewrite !elem_of_cons, elem_of_nil. simpl.
  intros [[= -> ->]|[[= -> ->]|[[= -> ->]|[[= -> ->]|[]]]]]; lia.
Qed.

Lemma manhattan_along_path P : ∀ c d,
  stepwise P → head P = Some c → last P = Some d →
  manhattan c d ≤ Z.of_nat (length P) - 1.
Proof.
  induction P as [|c0 P IH]; intros c d Hstep Hhead Hlast; [done|].
  injection Hhead as ->. destruct P as [|c1 P].
  - injection Hlast as ->. unfold manhattan. simpl. lia.
  - assert (adjacent c c1) as Hadj by (apply (Hstep 0%nat); done).
    assert (manhattan c1 d ≤ Z.of_nat (length (c1 :: P)) - 1) as Hrest.
    { apply IH; [|done|done]. intros i a b Ha Hb. apply (Hstep (S i)); done. }
    pose proof (manhattan_step c c1 d Hadj). cbn [length] in *. lia.
Qed.

Lemma heuristic_exact (a b : Node) :
  manhattan (pos a) (pos b) ≤ int_max →
  heuristic a b = manhattan (pos a) (pos b) ∧ heuristic b a = manhattan (pos a) (pos b).
Proof.
  unfold manhattan, pos. simpl. intros Hfit.
  assert (∀ u v u' v', Z.abs (u - v) + Z.abs (u' - v') ≤ int_max →
            wrap (wrap (Z.abs (wrap (u - v))) + wrap (Z.abs (wrap (u' - v'))))
            = Z.abs (u - v) + Z.abs (u' - v')) as Hw.
  { intros u v u' v' Hle.
    rewrite (wrap_id (u - v)), (wrap_id (u' - v')),
      (wrap_id (Z.abs (u - v))), (wrap_id (Z.abs (u' - v'))), wrap_id;
      unfold in_int, int_min, int_max in *; lia. }
  split; [by apply Hw|]. unfold heuristic. rewrite Hw; lia.
Qed.

(** As long as the distance fits in an [int], [heuristic] is the Manhattan
    distance: non-negative, symmetric, and 0 exactly between nodes at the
    same coordinates. *)
Theorem heuristic_manhattan (a b : Node) :
  manhattan (pos a) (pos b) ≤ int_max →
  heuristic a b = manhattan (pos a) (pos b) ∧
  0 ≤ heuristic a b ∧
  heuristic b a = heuristic a b ∧
  (heuristic a b = 0 ↔ pos a = pos b).
Proof.
  intros Hfit. destruct (heuristic_exact a b Hfit) as [Hab Hba].
  rewrite Hab, Hba. unfold manhattan, pos. simpl.
  split_and!; [done|lia|done|]. split.
  - intros H0. f_equal; lia.
  - intros [= -> ->]. lia.
Qed.

Lemma heuristic_manhattan_witness :
  heuristic (fresh (0, 0)) (fresh (2, 2)) = manhattan (0, 0) (2, 2) ∧
  0 ≤ heuristic (fresh (0, 0)) (fresh (2, 2)) ∧
  heuristic (fresh (2, 2)) (fresh (0, 0)) = heuristic (fresh (0, 0)) (fresh (2, 2)) ∧
  (heuristic (fresh (0, 0)) (fresh (2, 2)) = 0 ↔ pos (fresh (0, 0)) = pos (fresh (2, 2))).
Proof.
  apply (heuristic_manhattan (fresh (0, 0)) (fresh (2, 2))).
  unfold manhattan, int_max. simpl. lia.
Defined.

(** The heuristic never overestimates: it is at most the number of steps
    of any sequence of unit orthogonal steps between the two nodes
    (admissible), and it changes by at most 1 across one such step
    (consistent). *)
Theorem heuristic_admissible_consistent (a b goalN : Node) (P : list coord) :
  manhattan (pos a) (pos goalN) ≤ int_max →
  manhattan (pos b) (pos goalN) ≤ int_max →
  (stepwise P → head P = Some (pos a) → last P = Some (pos goalN) →
   heuristic a goalN ≤ Z.of_nat (length P) - 1) ∧
  (adjacent (pos a) (pos b) → heuristic a goalN ≤ 1 + heuristic b goalN).
Proof.
  intros Ha Hb.
  destruct (heuristic_exact a goalN Ha) as (-> & _).
  destruct (heuristic_exact b goalN Hb) as (-> & _).
  split.
  - apply manhattan_along_path.
  - apply manhattan_step.
Qed.

Lemma heuristic_admissible_consistent_witness :
  let P := [(0, 0); (1, 0); (2, 0); (2, 1); (2, 2)] in
  (stepwise P → head P = Some (pos (fresh (0, 0))) → last P = Some (pos (fresh (2, 2))) →
   heuristic (fresh (0, 0)) (fresh (2, 2)) ≤ Z.of_nat (length P) - 1) ∧
  (adjacent (pos (fresh (0, 0))) (pos (fresh (1, 0))) →
   heuristic (fresh (0, 0)) (fresh (2, 2)) ≤ 1 + heuristic (fresh (1, 0)) (fresh (2, 2))).
Proof.
  apply (heuristic_admissible_consistent (fresh (0, 0)) (fresh (1, 0)) (fresh (2, 2))).
  - unfold manhattan, int_max. simpl. lia.
  - unfold manhattan, int_max. simpl. lia.
Defined.

(** ** NodeHash and NodeEqual *)

(** Keys that [NodeEqual] identifies hash alike, whatever [std::hash<int>]
    is: the requirement of [unordered_map] on its hasher.  The cost,
    parent and other fields of the key play no part in either. *)
Theorem NodeHash_respects_NodeEqual (hash_int : Z → Z) (a b : Node) :
  NodeEqual a b = true → NodeHash hash_int a = NodeHash hash_int b.
Proof.
  intros [= Hx Hy]%NodeEqual_pos. unfold NodeHash. by rewrite Hx, Hy.
Qed.

Lemma NodeHash_respects_NodeEqual_witness :
  NodeHash id (new_Node 1 2 0 0 None) = NodeHash id (new_Node 1 2 5 3 (Some 0%nat)).
Proof.
  apply (NodeHash_respects_NodeEqual id (new_Node 1 2 0 0 None) (new_Node 1 2 5 3 (Some 0%nat))).
  reflexivity.
Defined.

(** The xor makes the hash blind to the order of the coordinates and
    sends every diagonal cell to 0: these keys all collide. *)
Theorem NodeHash_collisions (hash_int : Z → Z) (i j : Z) :
  NodeHash hash_int (fresh (i, j)) = NodeHash hash_int (fresh (j, i)) ∧
  NodeHash hash_int (fresh (i, i)) = 0.
Proof.
  unfold NodeHash. simpl. split; [apply Z.lxor_comm|apply Z.lxor_nilpotent].
Qed.

(** ** reconstruct_path *)

Lemma walk_parents_ordered heap :
  (∀ q m r, heap !! q = Some m → parent m = Some r → (r < q)%nat) →
  ∀ p n fuel acc,
    heap !! p = Some n → (p < fuel)%nat →
    ∃ l root, walk_parents fuel heap (Some p) acc = Ok (acc ++ pos n :: l) ∧
              (length l ≤ p)%nat ∧ last (pos n :: l) = Some (pos root) ∧
              root ∈ heap ∧ parent root = None.
Proof.
  intros Hord p. induction (lt_wf p) as [p _ IH]. intros n fuel acc Hp Hfuel.
  destruct fuel as [|fuel]; [lia|]. cbn [walk_parents]. unfold deref.
  rewrite Hp, bind_Ok.
  destruct (parent n) as [r|] eqn:Hpar.
  - pose proof (Hord p n r Hp Hpar) as Hlt.
    destruct (lookup_lt_is_Some_2 heap r) as [m Hm].
    { apply lookup_lt_Some in Hp. lia. }
    destruct (IH r Hlt m fuel (acc ++ [(x n, y n)]) Hm) as (l & root & Hwalk & Hlen & Hlast & Hroot);
      [lia|].
    exists (pos m :: l), root. rewrite Hwalk, <- app_assoc. split_and!; [done|simpl; lia| |tauto..].
    by rewrite last_cons_cons.
  - exists [], n.
    destruct fuel; simpl; split_and!; try done; try lia; by eapply list_elem_of_lookup_2.
Qed.

(** When every parent link points to a node allocated earlier,
    [reconstruct_path] terminates: the path ends at the node it was given,
    begins at a node without parent, and is no longer than the number of
    nodes allocated up to that node. *)
Theorem reconstruct_path_ordered (heap : list Node) (p : ptr) (n : Node) (fuel : nat) :
  (∀ q m r, heap !! q = Some m → parent m = Some r → (r < q)%nat) →
  heap !! p = Some n → (p < fuel)%nat →
  ∃ P root, reconstruct_path fuel heap p = Ok P ∧
            last P = Some (pos n) ∧ head P = Some (pos root) ∧
            root ∈ heap ∧ parent root = None ∧ (0 < length P ≤ S p)%nat.
Proof.
  intros Hord Hp Hfuel.
  destruct (walk_parents_ordered heap Hord p n fuel [] Hp Hfuel)
    as (l & root & Hwalk & Hlen & Hlast & Hroot & Hnone).
  exists (reverse (pos n :: l)), root. unfold reconstruct_path.
  rewrite Hwalk, bind_Ok. simpl app. split_and!; try done.
  - by rewrite reverse_cons, last_snoc.
  - rewrite <- Hlast. rewrite <- (reverse_involutive (pos n :: l)) at 2.
    by rewrite last_reverse.
  - rewrite length_reverse. simpl. lia.
  - rewrite length_reverse. simpl. lia.
Qed.

Lemma reconstruct_path_ordered_witness :
  ∃ P root,
    reconstruct_path 3 [fresh (0, 0); new_Node 0 1 1 0 (Some 0%nat);
                        new_Node 0 2 2 0 (Some 1%nat)] 2%nat = Ok P ∧
    last P = Some (pos (new_Node 0 2 2 0 (Some 1%nat))) ∧ head P = Some (pos root) ∧
    root ∈ [fresh (0, 0); new_Node 0 1 1 0 (Some 0%nat); new_Node 0 2 2 0 (Some 1%nat)] ∧
    parent root = None ∧ (0 < length P ≤ 3)%nat.
Proof.
  apply (reconstruct_path_ordered
           [fresh (0, 0); new_Node 0 1 1 0 (Some 0%nat); new_Node 0 2 2 0 (Some 1%nat)]
           2%nat (new_Node 0 2 2 0 (Some 1%nat)) 3).
  - intros [|[|[|q]]] m r Hq Hr; simplify_eq/=; lia.
  - reflexivity.
  - lia.
Defined.

(** The loop of [reconstruct_path] stops only at a null parent: on links
    that never reach one (a cycle) it does not terminate. *)
Theorem reconstruct_path_cyclic (heap : list Node) (p : ptr) (fuel : nat) :
  (∀ q m, heap !! q = Some m → ∃ r, parent m = Some r ∧ is_Some (heap !! r)) →
  is_Some (heap !! p) →
  reconstruct_path fuel heap p = OutOfFuel.
Proof.
  intros Hcyc Hp. unfold reconstruct_path.
  assert (∀ acc, walk_parents fuel heap (Some p) acc = OutOfFuel) as ->; [|done].
  revert p Hp. induction fuel as [|fuel IH]; intros p [n Hn] acc; [done|].
  cbn [walk_parents]. unfold deref. rewrite Hn, bind_Ok.
  destruct (Hcyc p n Hn) as (r & -> & Hr). by apply IH.
Qed.

Lemma reconstruct_path_cyclic_witness :
  reconstruct_path 100 [new_Node 0 0 0 0 (Some 1%nat); new_Node 0 1 0 0 (Some 0%nat)] 0%nat
  = OutOfFuel.
Proof.
  apply (reconstruct_path_cyclic
           [new_Node 0 0 0 0 (Some 1%nat); new_Node 0 1 0 0 (Some 0%nat)] 0%nat 100).
  - intros [|[|q]] m Hq; simplify_eq/=; eauto.
  - eauto.
Defined.

(** ** The search depends on addresses only through their order *)

Section AddressOrder.

Variables addr addr' : ptr → Z.
Hypothesis same_order : ∀ p q, addr p < addr q ↔ addr' p < addr' q.

Lemma top_same_order open : top addr open = top addr' open.
Proof.
  induction open as [|p rest IH]; [done|]. cbn [top]. rewrite <- IH.
  destruct (top addr rest) as [q|]; [|done].
  destruct (Z.ltb_spec (addr q) (addr p)) as [H|H], (Z.ltb_spec (addr' q) (addr' p)) as [H'|H'];
    try done.
  - apply same_order in H. lia.
  - apply same_order in H'. lia.
Qed.

Lemma loop_body_same_order fuel grid st :
  loop_body addr fuel grid st = loop_body addr' fuel grid st.
Proof. unfold loop_body, pop. by rewrite !top_same_order. Qed.

Lemma main_loop_same_order fuel0 grid fuel : ∀ st,
  main_loop addr fuel0 fuel grid st = main_loop addr' fuel0 fuel grid st.
Proof.
  induction fuel as [|fuel IH]; intros st; [done|]. cbn [main_loop].
  rewrite loop_body_same_order. destruct (loop_body addr' fuel0 grid st); [apply IH|done].
Qed.

End AddressOrder.

(** Two heaps that place the nodes in the same relative order give the
    same result: nothing but the order of the addresses enters the
    search. *)
Theorem a_star_address_order (addr addr' : ptr → Z) (grid : Grid) (start goal : coord) :
  (∀ p q, addr p < addr q ↔ addr' p < addr' q) →
  a_star addr grid start goal = a_star addr' grid start goal.
Proof. intros Hsame. by apply main_loop_same_order. Qed.

Lemma a_star_address_order_witness :
  a_star up ring (0, 0) (2, 2) = a_star (λ p, 48 * Z.of_nat p + 4096) ring (0, 0) (2, 2).
Proof.
  apply (a_star_address_order up (λ p, 48 * Z.of_nat p + 4096) ring (0, 0) (2, 2)).
  intros p q. unfold up. lia.
Defined.

(** ** What an iteration does to the registry and the open set *)

Lemma StronglySorted_lt_NoDup (l : list nat) : StronglySorted lt l → NoDup l.
Proof.
  induction 1 as [|a l Hl IH Ha]; constructor; [|done].
  intros Hin. eapply Forall_forall in Ha; [|exact Hin]. lia.
Qed.

Lemma remove_first_other p q l : q ∈ l → q ≠ p → q ∈ remove_first p l.
Proof.
  induction l as [|a l IH]; simpl; [done|].
  intros [->|Hq]%elem_of_cons Hne; case_decide; subst; try done.
  - left.
  - right. auto.
Qed.

Lemma remove_first_NoDup p l : NoDup l → NoDup (remove_first p l) ∧ p ∉ remove_first p l.
Proof.
  induction 1 as [|a l Ha Hl IH]; simpl.
  - split; [constructor|]. by intros ?%elem_of_nil.
  - case_decide as Hpa.
    + subst. done.
    + destruct IH as [IH1 IH2]. split.
      * constructor; [|done]. intros Hin. apply Ha. by eapply remove_first_elem.
      * intros [->|Hin]%elem_of_cons; done.
Qed.

Section Iteration.

Variable grid : Grid.
Variables start goal : coord.

(** The node written for an admitted neighbour [c]. *)
Lemma visit_neighbor_cases W st current cur nb c :
  Inv grid start goal W st → registered st current cur →
  heap st !! nb = Some (fresh c) →
  (is_Some (allNodes st !! c) ∧ visit_neighbor current st nb = Ok st) ∨
  (allNodes st !! c = None ∧
   visit_neighbor current st nb =
     Ok {| heap := <[nb := {| x := c.1; y := c.2; g := g cur + 1;
                              h := heuristic (fresh c) (fresh goal);
                              f := g cur + 1 + heuristic (fresh c) (fresh goal);
                              parent := Some current |}]> (heap st);
           openSet := openSet st ++ [nb];
           allNodes := <[c := nb]> (allNodes st) |}).
Proof.
  intros HI Hcur Hfresh.
  pose proof (registered_g_nonneg _ _ _ _ _ _ _ HI Hcur) as Hg0.
  pose proof (inv_goal _ _ _ _ _ HI) as Hgoal.
  destruct (allNodes st !! c) as [p0|] eqn:Hc.
  - left. split; [eauto|].
    eapply visit_neighbor_known; [apply Hcur|done|done|done|]. rewrite Hc. eauto.
  - right. split; [done|]. eapply visit_neighbor_new; [apply Hcur|done|done|done].
Qed.

Lemma visit_neighbors_facts current cur cs : ∀ W st,
  Inv grid start goal W st → registered st current cur →
  (W + length cs ≤ length (heap st))%nat →
  (∀ i c, cs !! i = Some c → heap st !! (W + i)%nat = Some (fresh c)) →
  Forall (λ c, generated (pos cur) c ∧ admissible grid c) cs →
  ∃ st' news,
    visit_neighbors current st (seq W (length cs)) = Ok st' ∧
    Inv grid start goal (W + length cs) st' ∧
    (∀ p n, registered st p n → registered st' p n) ∧
    (∀ c, c ∈ cs → is_Some (allNodes st' !! c)) ∧
    (∀ c' p, allNodes st' !! c' = Some p → allNodes st !! c' = Some p ∨ p ∈ news) ∧
    openSet st' = openSet st ++ news ∧
    StronglySorted lt news ∧
    (∀ p, p ∈ news → (W ≤ p)%nat ∧ admitted goal st' current cur p).
Proof.
  induction cs as [|c cs IH]; intros W st HI Hcur Hlen Hheap Hall.
  - exists st, []. simpl. rewrite app_nil_r, Nat.add_0_r. split_and!; auto.
    + by intros c ?%elem_of_nil.
    + constructor.
    + by intros p ?%elem_of_nil.
  - apply Forall_cons in Hall as [[Hgen Hadm] Hall]. simpl in Hlen.
    assert (heap st !! W = Some (fresh c)) as HW.
    { specialize (Hheap 0%nat c eq_refl). by rewrite Nat.add_0_r in Hheap. }
    destruct (visit_neighbor_inv grid start goal W st current cur W c)
      as (st1 & Hv & HI1 & Hcur1 & Hlen1 & Hsame & _); auto; [lia|].
    destruct (IH (S W) st1) as (st' & news & Hvs & HI' & Hreg & Hcs & Hnew & Hopen & Hnd & Hge);
      auto; [lia| |].
    { intros i c' Hi. rewrite Hsame by lia.
      replace (S W + i)%nat with (W + S i)%nat by lia. by apply Hheap. }
    assert (∀ c' p, allNodes st1 !! c' = Some p → allNodes st' !! c' = Some p) as Hmono.
    { intros c' p Hc'.
      destruct (inv_reg _ _ _ _ _ HI1 c' p Hc') as (_ & n & Hp & <- & _).
      by apply (Hreg p n). }
    assert (∀ p n, registered st p n → registered st1 p n) as Hreg1.
    { intros p n Hp.
      destruct (registered_inv _ _ _ _ _ _ _ HI Hp) as (HpW & _).
      destruct Hp as [Hp1 Hp2]. split.
      - rewrite Hsame by lia. done.
      - destruct (visit_neighbor_cases W st current cur W c HI Hcur HW)
          as [[_ Hst]|[Hnone Hst]]; rewrite Hst in Hv; injection Hv as <-; [done|].
        simpl. rewrite lookup_insert_ne; [done|]. intros ->. congruence. }
    cbn [length seq visit_neighbors]. rewrite Hv, bind_Ok.
    replace (W + S (length cs))%nat with (S W + length cs)%nat by lia.
    destruct (visit_neighbor_cases W st current cur W c HI Hcur HW)
      as [[Hsome Hst]|[Hnone Hst]]; rewrite Hst in Hv; injection Hv as <-.
    + exists st', news. split_and!; auto.
      * intros c' [->|Hc']%elem_of_cons; [|auto].
        destruct Hsome as [p Hp]. exists p. by apply Hmono.
      * intros p Hp. destruct (Hge p Hp). split; [lia|done].
    + exists st', (W :: news). simpl in *. split_and!; auto.
      * intros c' [->|Hc']%elem_of_cons; [|auto].
        exists W. apply Hmono. apply lookup_insert_eq.
      * intros c' p Hc'. destruct (Hnew c' p Hc') as [Hold|?]; [|right; by right].
        apply lookup_insert_Some in Hold as [[<- <-]|[_ Hold]]; [right; left|by left].
      * by rewrite Hopen, <- app_assoc.
      * constructor; [done|]. apply Forall_forall. intros p Hp.
        destruct (Hge p Hp). lia.
      * intros p [->|Hp]%elem_of_cons.
        -- split; [lia|]. pose proof (inv_W _ _ _ _ _ HI).
           split; [unfold startNode; lia|].
           set (node := {| x := c.1; y := c.2; g := g cur + 1;
                           h := heuristic (fresh c) (fresh goal);
                           f := g cur + 1 + heuristic (fresh c) (fresh goal);
                           parent := Some current |}).
           exists node. split; [|by destruct c].
           apply (Hreg W node). split; simpl.
           ++ apply list_lookup_insert_eq. lia.
           ++ destruct c. apply lookup_insert_eq.
        -- destruct (Hge p Hp). split; [lia|done].
Qed.

Section Body.

Variable addr : ptr → Z.

(** One full iteration: the popped node leaves the open set, the new
    nodes enter it, and the registry only grows. *)
Lemma loop_body_Continue_facts fuel0 st st' :
  Inv grid start goal (length (heap st)) st →
  loop_body addr fuel0 grid st = Continue st' →
  ∃ current cur news,
    top addr (openSet st) = Some current ∧ registered st current cur ∧ pos cur ≠ goal ∧
    (∀ p n, registered st p n → registered st' p n) ∧
    (∀ c, generated (pos cur) c → admissible grid c → is_Some (allNodes st' !! c)) ∧
    (∀ c' p, allNodes st' !! c' = Some p → allNodes st !! c' = Some p ∨ p ∈ news) ∧
    openSet st' = pop addr (openSet st) ++ news ∧
    StronglySorted lt news ∧
    (∀ p, p ∈ news → (length (heap st) ≤ p)%nat ∧ admitted goal st' current cur p).
Proof.
  intros HI. unfold loop_body.
  destruct (top addr (openSet st)) as [current|] eqn:Htop; [|done].
  destruct (inv_open _ _ _ _ _ HI current (top_elem _ _ _ Htop)) as [cur Hcur].
  unfold deref at 1 2. rewrite (proj1 Hcur), (inv_goal _ _ _ _ _ HI).
  destruct (_ && _) eqn:Hgoal; [done|].
  destruct (get_neighbors (heap st) current grid) as [[heap' nbs]| |] eqn:Hn; [|done..].
  destruct (get_neighbors_Ok _ _ _ _ _ _ (proj1 Hcur) Hn) as [-> ->].
  set (cs := filter (admissible grid) (cand (x cur) (y cur) <$> directions)).
  set (st0 := {| heap := heap st ++ (fresh <$> cs); openSet := pop addr (openSet st);
                 allNodes := allNodes st |}).
  assert (Inv grid start goal (length (heap st)) st0) as HI0.
  { apply Inv_extend; [done|]. apply pop_elem. }
  destruct (visit_neighbors_facts current cur cs (length (heap st)) st0)
    as (st1 & news & Hv & _ & Hreg & Hcs & Hnew & Hopen & Hnd & Hge); auto.
  - by apply registered_extend.
  - simpl. rewrite length_app, length_fmap. lia.
  - intros i c Hi. simpl. rewrite lookup_app_r by lia.
    replace (length (heap st) + i - length (heap st))%nat with i by lia.
    by rewrite list_lookup_fmap, Hi.
  - apply candidates_generated.
  - rewrite Hv. intros [= <-]. exists current, cur, news. split_and!; auto.
    + intros Hpos. apply andb_false_iff in Hgoal.
      rewrite <- Hpos in Hgoal. simpl in Hgoal. rewrite !Z.eqb_refl in Hgoal.
      by destruct Hgoal.
    + intros p n Hp. apply Hreg. by apply registered_extend.
    + intros c Hgen Hadm. apply Hcs. apply list_elem_of_filter. by split.
Qed.

End Body.

End Iteration.

(** ** Invariants of the search *)

Section Reach.

Variable addr : ptr → Z.
Variable grid : Grid.
Variables start goal : coord.

Lemma search_inv_init : search_inv grid start goal (init_state start goal).
Proof.
  split_and!.
  - apply Inv_init.
  - intros c p Hc. simpl in Hc. apply lookup_singleton_Some in Hc as [<- <-].
    left. simpl. by left.
  - simpl. apply NoDup_singleton.
  - intros p n [Hp Hc]. simpl in Hc. apply lookup_singleton_Some in Hc as [_ <-].
    simpl in Hp. injection Hp as <-. split_and!; simpl; [done|done|]. by left.
Qed.

Lemma search_inv_step fuel0 st st' :
  search_inv grid start goal st → loop_body addr fuel0 grid st = Continue st' →
  search_inv grid start goal st' ∧ (∀ p n, registered st p n → registered st' p n).
Proof.
  intros (HI & Hclosed & Hnd & Hfields) Hbody.
  destruct (loop_body_Continue _ _ _ _ _ _ _ HI Hbody) as [HI' _].
  destruct (loop_body_Continue_facts _ _ _ _ _ _ _ HI Hbody)
    as (current & cur & news & Htop & Hcur & Hgoal & Hreg & Hexp & Hnew & Hopen & Hndn & Hge).
  assert (∀ c, is_Some (allNodes st !! c) → is_Some (allNodes st' !! c)) as Hmono.
  { intros c [p Hp]. destruct (inv_reg _ _ _ _ _ HI c p Hp) as (_ & n & Hn & <- & _).
    exists p. by apply (Hreg p n). }
  split; [|done]. split_and!; [done| | |].
  - intros c p Hc. destruct (Hnew c p Hc) as [Hold|Hin].
    2:{ left. rewrite Hopen. apply elem_of_app. by right. }
    destruct (Hclosed c p Hold) as [Hin|[Hne Hall]].
    + destruct (decide (p = current)) as [->|Hpc].
      * right. destruct (inv_reg _ _ _ _ _ HI c current Hold) as (_ & n & Hn & <- & _).
        assert (n = cur) as -> by (destruct Hcur; congruence). by split.
      * left. rewrite Hopen. apply elem_of_app. left.
        unfold pop. rewrite Htop. by apply remove_first_other.
    + right. split; [done|]. intros c' Hgen Hadm. apply Hmono. by apply Hall.
  - rewrite Hopen. apply NoDup_app. split_and!; [| |by apply StronglySorted_lt_NoDup].
    + unfold pop. rewrite Htop. by apply remove_first_NoDup.
    + intros p Hp%pop_elem Hin.
      destruct (inv_open _ _ _ _ _ HI p Hp) as [n Hn].
      destruct (registered_inv _ _ _ _ _ _ _ HI Hn) as (Hlt & _).
      destruct (Hge p Hin). lia.
  - intros p n [Hp Hc]. destruct (Hnew _ _ Hc) as [Hold|Hin].
    + destruct (inv_reg _ _ _ _ _ HI _ _ Hold) as (_ & n0 & Hn0 & Hpos & _).
      assert (registered st p n0) as Hr0 by (split; [done|by rewrite Hpos]).
      assert (n0 = n) as -> by (destruct (Hreg p n0 Hr0); congruence).
      by apply Hfields.
    + destruct (Hge p Hin) as (_ & Hne & n' & Hn' & Hh & Hf & Hg & _).
      assert (n' = n) as -> by congruence.
      pose proof (registered_g_nonneg _ _ _ _ _ _ _ HI Hcur).
      split_and!; [done|lia|]. right. split_and!; [done|lia|done].
Qed.

Lemma iterate_search_inv k : ∀ st st',
  search_inv grid start goal st → iterate addr k grid st = Some st' →
  search_inv grid start goal st' ∧ (∀ p n, registered st p n → registered st' p n).
Proof.
  induction k as [|k IH]; intros st st' Hinv; cbn [iterate].
  - intros [= <-]. done.
  - destruct (loop_body addr (fuel_bound grid) grid st) as [st1|] eqn:Hbody; [|done].
    destruct (search_inv_step _ _ _ Hinv Hbody) as [Hinv1 Hreg1].
    intros Hit. destruct (IH st1 st' Hinv1 Hit) as [Hinv' Hreg']. auto.
Qed.

(** A run that ends with the empty sequence has emptied the open set. *)
Lemma main_loop_exhausted fuel : ∀ st,
  search_inv grid start goal st →
  main_loop addr (fuel_bound grid) fuel grid st = Ok [] →
  ∃ st', search_inv grid start goal st' ∧ openSet st' = [] ∧
         (∀ p n, registered st p n → registered st' p n).
Proof.
  induction fuel as [|fuel IH]; intros st Hinv; [done|]. cbn [main_loop].
  destruct (loop_body addr (fuel_bound grid) grid st) as [st1|r] eqn:Hbody.
  - destruct (search_inv_step _ _ _ Hinv Hbody) as [Hinv1 Hreg1].
    intros Hrun. destruct (IH st1 Hinv1 Hrun) as (st' & ? & ? & ?). exists st'. auto.
  - intros ->. destruct Hinv as (HI & Hrest).
    destruct (loop_body_Return _ _ _ _ _ _ _ HI Hbody)
      as [[Hopen _]|[(current & cur & Hreg & Hpos & Hrec)|[? _]]]; [|exfalso|done].
    + exists st. split_and!; auto. by split.
    + destruct (reconstruct_path_trail grid start goal _ st (fuel_bound grid) current cur HI Hreg)
        as (P & HP & Htrail); [unfold fuel_bound; lia|].
      rewrite HP in Hrec. injection Hrec as <-.
      apply trail_length in Htrail. simpl in Htrail.
      pose proof (registered_g_nonneg _ _ _ _ _ _ _ HI Hreg). lia.
Qed.

End Reach.

(** On a grid that fits in [int], a walkable cell next to [a] is one of
    the candidates [get_neighbors] accepts at [a]. *)
Lemma adjacent_generated grid a b :
  Z.of_nat (length grid) ≤ int_max →
  Z.of_nat (length (default [] (grid !! 0%nat))) ≤ int_max →
  in_int a.1 → in_int a.2 → adjacent a b → walkable grid b →
  generated a b ∧ admissible grid b.
Proof.
  intros Hrows Hcols Ha1 Ha2 Hadj Hw.
  assert (∃ d, d ∈ directions ∧ b = (a.1 + d.1, a.2 + d.2)) as (d & Hd & ->).
  { unfold adjacent, steps, directions in *. rewrite !elem_of_cons, elem_of_nil in Hadj.
    destruct Hadj as [->|[->|[->|[->|[]]]]];
      [exists (-1, 0)|exists (1, 0)|exists (0, -1)|exists (0, 1)];
      (split; [set_solver|simpl; by rewrite ?Z.add_0_r]). }
  assert (-1 ≤ d.1 ≤ 1 ∧ -1 ≤ d.2 ≤ 1) as [Hd1 Hd2].
  { unfold directions in Hd. rewrite !elem_of_cons, elem_of_nil in Hd.
    destruct Hd as [->|[->|[->|[->|[]]]]]; simpl; lia. }
  destruct (cand_exact grid a.1 a.2 Hrows Hcols Ha1 Ha2 d Hd1 Hd2) as [Hiff Hexact].
  apply Hiff in Hw. rewrite <- (Hexact Hw). split; [|done].
  unfold generated. by apply list_elem_of_fmap_2.
Qed.

Section Complete.

Variable addr : ptr → Z.
Variable grid : Grid.
Variables start goal : coord.
Hypothesis rows_fit : Z.of_nat (length grid) ≤ int_max.
Hypothesis cols_fit : Z.of_nat (length (default [] (grid !! 0%nat))) ≤ int_max.
Hypothesis start_int : in_int start.1 ∧ in_int start.2.

(** Once the open set is empty the registry is closed under steps to
    walkable cells. *)
Lemma exhausted_registry_closed st P : ∀ c0,
  search_inv grid start goal st → openSet st = [] →
  stepwise P → Forall (walkable grid) (tail P) → head P = Some c0 →
  is_Some (allNodes st !! c0) →
  ∀ c, c ∈ P → is_Some (allNodes st !! c).
Proof.
  intros c0 (HI & Hclosed & _) Hopen. revert c0.
  induction P as [|a P IH]; intros c0 Hstep Hwalk Hhead Hc0 c Hc; [by apply elem_of_nil in Hc|].
  injection Hhead as ->.
  apply elem_of_cons in Hc as [->|Hc]; [done|].
  destruct P as [|b P]; [by apply elem_of_nil in Hc|].
  simpl in Hwalk. apply Forall_cons in Hwalk as [Hb Hwalk].
  assert (adjacent c0 b) as Hadj by (apply (Hstep 0%nat); done).
  apply (IH b); auto.
  - intros i u v Hu Hv. apply (Hstep (S i)); done.
  - destruct Hc0 as [p Hp].
    destruct (Hclosed c0 p Hp) as [Hin|[_ Hall]]; [rewrite Hopen in Hin; by apply elem_of_nil in Hin|].
    assert (in_int c0.1 ∧ in_int c0.2) as [H1 H2].
    { destruct (inv_reg _ _ _ _ _ HI c0 p Hp) as (_ & n & _ & <- & _ & [[_ ->]|Hok]).
      - by rewrite pos_fresh.
      - destruct Hok as (q & m & _ & _ & _ & _ & _ & Hadm). by apply (admissible_in_int grid). }
    destruct (adjacent_generated grid c0 b rows_fit cols_fit H1 H2 Hadj Hb). by apply Hall.
Qed.

Lemma a_star_reaches :
  reachable grid start goal → a_star addr grid start goal ≠ Ok [].
Proof.
  intros (P & Hhead & Hlast & Hstep & Hwalk) Hrun.
  destruct (main_loop_exhausted addr grid start goal _ _ (search_inv_init grid start goal) Hrun)
    as (st & Hinv & Hopen & Hreg).
  assert (is_Some (allNodes st !! start)) as Hstart.
  { exists startNode.
    destruct (Hreg startNode (fresh start)) as [_ H]; [|by rewrite pos_fresh in H].
    split; [done|]. simpl. rewrite pos_fresh. apply lookup_singleton_eq. }
  assert (goal ∈ P) as Hgoal.
  { rewrite last_lookup in Hlast. by eapply list_elem_of_lookup_2. }
  destruct (exhausted_registry_closed st P start Hinv Hopen Hstep Hwalk Hhead Hstart goal Hgoal)
    as [p Hp].
  destruct Hinv as (_ & Hclosed & _).
  destruct (Hclosed goal p Hp) as [Hin|[Hne _]]; [|done].
  rewrite Hopen in Hin. by apply elem_of_nil in Hin.
Qed.

End Complete.

(** ** Results about the search *)

(** Completeness.  On a non-empty rectangular grid that fits in [int], if
    the goal can be reached from the start by unit orthogonal steps over
    walkable cells, the search returns a route to it, whatever the order
    of the addresses. *)
Theorem a_star_finds_reachable_goal (addr : ptr → Z) (grid : Grid) (start goal : coord) :
  rectangular grid →
  Z.of_nat (length grid) ≤ int_max →
  Z.of_nat (length (default [] (grid !! 0%nat))) ≤ int_max →
  in_int start.1 → in_int start.2 →
  reachable grid start goal →
  ∃ P, a_star addr grid start goal = Ok P ∧ P ≠ [] ∧ route grid start goal P.
Proof.
  intros Hrect Hrows Hcols Hx Hy Hreach.
  pose proof (a_star_reaches addr grid start goal Hrows Hcols (conj Hx Hy) Hreach) as Hne.
  destruct (a_star_fuel_post addr grid start goal (fuel_bound grid) (le_n _))
    as [H|[(st & P & k & H & Htrail)|[_ Hbad]]]; [done| |done].
  destruct (trail_route grid start st P goal k Hx Hy Htrail) as (Hroute & _).
  exists P. split_and!; [done| |done]. intros ->. by destruct Hroute.
Qed.

Lemma ring_route : route ring (0, 0) (2, 0) [(0, 0); (1, 0); (2, 0)].
Proof.
  split_and!; [done|done| |repeat constructor; compute_done].
  intros i a b Ha Hb. destruct i as [|[|i]]; simplify_eq/=; compute_done.
Defined.

Lemma a_star_finds_reachable_goal_witness :
  ∃ P, a_star down ring (0, 0) (2, 0) = Ok P ∧ P ≠ [] ∧ route ring (0, 0) (2, 0) P.
Proof.
  apply (a_star_finds_reachable_goal down ring (0, 0) (2, 0)).
  - apply ring_rectangular.
  - unfold int_max. simpl. lia.
  - unfold int_max. simpl. lia.
  - unfold in_int, int_min, int_max. simpl. lia.
  - unfold in_int, int_min, int_max. simpl. lia.
  - exists [(0, 0); (1, 0); (2, 0)]. apply ring_route.
Defined.

(** A goal that is blocked or outside the grid, and is not the start, is
    never reached: the result is the empty sequence. *)
Theorem a_star_goal_not_walkable (addr : ptr → Z) (grid : Grid) (start goal : coord) :
  rectangular grid → start ≠ goal → ¬ walkable grid goal →
  a_star addr grid start goal = Ok [].
Proof.
  intros Hrect Hne Hgoal.
  destruct (a_star_fuel_post addr grid start goal (fuel_bound grid) (le_n _))
    as [H|[(st & P & k & H & Htrail)|[_ Hbad]]]; [done|exfalso|done].
  pose proof (trail_head _ _ _ _ _ _ Htrail) as Hhead.
  pose proof (trail_last _ _ _ _ _ _ Htrail) as Hlast.
  pose proof (trail_tail _ _ _ _ _ _ Htrail) as Htail.
  destruct P as [|c P]; [done|]. injection Hhead as ->.
  destruct P as [|c P]; [by injection Hlast|].
  rewrite last_cons_cons in Hlast. simpl in Htail.
  apply Hgoal, admissible_walkable.
  eapply Forall_forall; [exact Htail|].
  rewrite last_lookup in Hlast. by eapply list_elem_of_lookup_2.
Qed.

Lemma a_star_goal_not_walkable_witness : a_star up ring (0, 0) (1, 1) = Ok [].
Proof.
  apply (a_star_goal_not_walkable up ring (0, 0) (1, 1)).
  - apply ring_rectangular.
  - discriminate.
  - intros [_ Hc]. discriminate Hc.
Defined.

(** A returned path never has more coordinates than the grid has cells,
    plus one for a start outside the grid. *)
Theorem a_star_path_length (addr : ptr → Z) (grid : Grid) (start goal : coord)
    (P : list coord) :
  a_star addr grid start goal = Ok P →
  (length P ≤ S (length grid * length (default [] (grid !! 0%nat))))%nat.
Proof.
  intros Hres.
  destruct (a_star_fuel_post addr grid start goal (fuel_bound grid) (le_n _))
    as [H|[(st & P' & k & H & Htrail)|[H _]]]; unfold a_star in Hres; rewrite H in Hres;
    [injection Hres as <-; simpl; lia| |done].
  injection Hres as ->.
  rewrite <- length_cells.
  rewrite <- (size_list_to_set (C := gset (Z * Z)) P) by (by eapply trail_NoDup).
  etrans; [apply (subseteq_size _ ({[start]} ∪ list_to_set (cells grid)))|].
  - intros c Hc%elem_of_list_to_set.
    destruct (trail_elem _ _ _ _ _ _ Htrail c Hc) as [->|Hadm]; [set_solver|].
    apply elem_of_union_r, elem_of_list_to_set, walkable_cells.
    by apply admissible_walkable.
  - rewrite size_union_alt, size_singleton.
    pose proof (size_list_to_set_le (cells grid)) as Hle.
    assert (size (list_to_set (cells grid) ∖ {[start]} : gset (Z * Z))
            ≤ size (list_to_set (cells grid) : gset (Z * Z)))%nat as Hs
      by (apply subseteq_size, subseteq_difference_l; done).
    lia.
Qed.

Lemma a_star_path_length_witness :
  (length [(0%Z, 0%Z); (0%Z, 1%Z); (0%Z, 2%Z); (1%Z, 2%Z); (2%Z, 2%Z); (2%Z, 1%Z); (2%Z, 0%Z)]
   ≤ S (length ring * length (default [] (ring !! 0%nat))))%nat.
Proof.
  apply (a_star_path_length down ring (0, 0) (2, 0)). vm_compute. reflexivity.
Defined.

(** A registry entry is final: once a coordinate is registered, its node,
    with its cost and its parent, stays as it is for the rest of the
    search. *)
Theorem registry_entry_final (addr : ptr → Z) (grid : Grid) (start goal : coord)
    (k j : nat) (st st' : state) (p : ptr) (n : Node) :
  iterate addr k grid (init_state start goal) = Some st →
  iterate addr j grid st = Some st' →
  registered st p n →
  registered st' p n ∧ gcost st' (pos n) = Some (g n).
Proof.
  intros Hk Hj Hreg.
  destruct (iterate_search_inv addr grid start goal k _ _ (search_inv_init grid start goal) Hk)
    as [Hinv _].
  destruct (iterate_search_inv addr grid start goal j _ _ Hinv Hj) as [_ Hkeep].
  destruct (Hkeep p n Hreg) as [Hp Hc]. split; [by split|].
  unfold gcost. rewrite Hc. simpl. by rewrite Hp.
Qed.

Lemma registry_entry_final_witness :
  let st' := default (init_state (0, 0) (0, 4))
               (iterate down 7 walled (init_state (0, 0) (0, 4))) in
  registered st' 12%nat (new_Node 2 0 6 6 (Some 11%nat)) ∧
  gcost st' (pos (new_Node 2 0 6 6 (Some 11%nat))) = Some (g (new_Node 2 0 6 6 (Some 11%nat))).
Proof.
  apply (registry_entry_final down walled (0, 0) (0, 4) 6 1
           (default (init_state (0, 0) (0, 4)) (iterate down 6 walled (init_state (0, 0) (0, 4))))).
  - vm_compute. reflexivity.
  - vm_compute. reflexivity.
  - split; vm_compute; reflexivity.
Defined.

(** The fields of every registered node: [f = g + h] and [g >= 0]; the
    start node has [g = h = 0] (its heuristic is never computed), every
    other node has [g > 0] and [h = heuristic(node, goal)]. *)
Theorem registered_fields (addr : ptr → Z) (grid : Grid) (start goal : coord)
    (k : nat) (st : state) (p : ptr) (n : Node) :
  iterate addr k grid (init_state start goal) = Some st →
  registered st p n →
  fields_ok goal p n.
Proof.
  intros Hk Hreg.
  destruct (iterate_search_inv addr grid start goal k _ _ (search_inv_init grid start goal) Hk)
    as [(_ & _ & _ & Hfields) _].
  by apply Hfields.
Qed.

Lemma registered_fields_witness :
  fields_ok (0, 4) 12%nat (new_Node 2 0 6 6 (Some 11%nat)).
Proof.
  apply (registered_fields down walled (0, 0) (0, 4) 6
           (default (init_state (0, 0) (0, 4)) (iterate down 6 walled (init_state (0, 0) (0, 4))))).
  - vm_compute. reflexivity.
  - split; vm_compute; reflexivity.
Defined.

(** The open set never holds a node twice, nor two nodes of the same
    coordinate, and every entry is the registered node of its coordinate:
    there are no stale entries to skip. *)
Theorem open_set_entries_distinct (addr : ptr → Z) (grid : Grid) (start goal : coord)
    (k : nat) (st : state) :
  iterate addr k grid (init_state start goal) = Some st →
  NoDup (openSet st) ∧
  (∀ p, p ∈ openSet st → ∃ n, registered st p n) ∧
  (∀ p q n m, p ∈ openSet st → q ∈ openSet st →
              heap st !! p = Some n → heap st !! q = Some m → pos n = pos m → p = q).
Proof.
  intros Hk.
  destruct (iterate_search_inv addr grid start goal k _ _ (search_inv_init grid start goal) Hk)
    as [(HI & _ & Hnd & _) _].
  split_and!; [done|apply (inv_open _ _ _ _ _ HI)|].
  intros p q n m Hp Hq Hn Hm Hpos.
  destruct (inv_open _ _ _ _ _ HI p Hp) as (n' & Hn' & Hcp).
  destruct (inv_open _ _ _ _ _ HI q Hq) as (m' & Hm' & Hcq).
  assert (n' = n) as -> by congruence. assert (m' = m) as -> by congruence.
  rewrite Hpos in Hcp. congruence.
Qed.

Lemma open_set_entries_distinct_witness :
  let st := default (init_state (0, 0) (2, 2)) (iterate up 2 ring (init_state (0, 0) (2, 2))) in
  NoDup (openSet st) ∧
  (∀ p, p ∈ openSet st → ∃ n, registered st p n) ∧
  (∀ p q n m, p ∈ openSet st → q ∈ openSet st →
              heap st !! p = Some n → heap st !! q = Some m → pos n = pos m → p = q).
Proof.
  apply (open_set_entries_distinct up ring (0, 0) (2, 2) 2). vm_compute. reflexivity.
Defined.

(** ** get_neighbors on any grid *)

Lemma returned_cells_fresh cs : ∀ heap,
  returned_cells (heap ++ (fresh <$> cs), seq (length heap) (length cs)) = cs.
Proof.
  unfold returned_cells. simpl.
  induction cs as [|c cs IH]; intros heap; [done|].
  cbn [length seq omap list_omap fmap list_fmap].
  rewrite lookup_app_r by lia. rewrite Nat.sub_diag. simpl. rewrite pos_fresh.
  f_equal. specialize (IH (heap ++ [fresh c])).
  rewrite length_app, <- app_assoc in IH. simpl in IH.
  by rewrite Nat.add_1_r in IH.
Qed.

Lemma scan_directions_in_range dirs grid x0 y0 heap nbs :
  no_short_row grid →
  ∃ res, scan_directions dirs grid x0 y0 (rows grid) (cols grid) heap nbs = Ok res.
Proof.
  intros [Hne Hlong]. revert heap nbs.
  induction dirs as [|d dirs IH]; intros heap nbs; cbn [scan_directions]; [eauto|].
  set (c := cand x0 y0 d).
  change (wrap (x0 + d.1)) with (c.1). change (wrap (y0 + d.2)) with (c.2).
  destruct ((0 <=? c.1) && (c.1 <? rows grid) && (0 <=? c.2) && (c.2 <? cols grid)) eqn:Hb;
    [|apply IH].
  assert (0 ≤ c.1 < Z.of_nat (length grid) ∧
          0 ≤ c.2 < Z.of_nat (length (default [] (grid !! 0%nat)))) as [Hi Hj].
  { unfold rows, cols in Hb. split; (split; [lia|]); eapply wrap_below; lia. }
  rewrite grid_at_nonneg by lia.
  destruct (lookup_lt_is_Some_2 grid (Z.to_nat c.1)) as [row Hrow]; [lia|].
  rewrite Hrow.
  assert (length (default [] (grid !! 0%nat)) ≤ length row)%nat as Hlen.
  { apply Hlong. eapply list_elem_of_lookup_2, Hrow. }
  destruct (lookup_lt_is_Some_2 row (Z.to_nat c.2)) as [v Hv]; [lia|].
  rewrite Hv. simpl. destruct (v =? 0); apply IH.
Qed.

Lemma get_neighbors_in_range heap p n grid :
  no_short_row grid → heap !! p = Some n → ∃ res, get_neighbors heap p grid = Ok res.
Proof.
  intros Hgrid Hp. unfold get_neighbors, deref. rewrite Hp, bind_Ok.
  destruct (grid !! 0%nat) as [row0|] eqn:H0.
  - replace (wrap (Z.of_nat (length row0))) with (cols grid)
      by (unfold cols; by rewrite H0).
    by apply scan_directions_in_range.
  - destruct Hgrid as [Hne _]. destruct grid; [done|discriminate].
Qed.

(** On a non-empty grid with no row shorter than the first (rectangular
    or not) no index is out of range: [get_neighbors] returns, it has
    left the existing nodes untouched, and it returns pointers to exactly
    the nodes it allocated: at most four, each with [g = h = f = 0] and no
    parent, at a walkable cell one step from the given node. *)
Theorem get_neighbors_allocates (heap : list Node) (p : ptr) (n : Node) (grid : Grid) :
  no_short_row grid →
  heap !! p = Some n → in_int (x n) → in_int (y n) →
  ∃ heap' nbs,
    get_neighbors heap p grid = Ok (heap', nbs) ∧
    (∀ q, (q < length heap)%nat → heap' !! q = heap !! q) ∧
    nbs = seq (length heap) (length heap' - length heap) ∧
    (length nbs ≤ 4)%nat ∧
    ∀ q, q ∈ nbs → ∃ c, heap' !! q = Some (fresh c) ∧ walkable grid c ∧ adjacent (pos n) c.
Proof.
  intros Hgrid Hp Hx Hy.
  destruct (get_neighbors_in_range heap p n grid Hgrid Hp) as [[heap' nbs] Hres].
  exists heap', nbs. split; [done|].
  destruct (get_neighbors_Ok _ _ _ _ _ _ Hp Hres) as [-> ->].
  set (cs := filter (admissible grid) (cand (x n) (y n) <$> directions)).
  assert (length cs ≤ 4)%nat as Hlen by (etrans; [apply length_filter|done]).
  split_and!.
  - intros q Hq. by rewrite lookup_app_l.
  - rewrite length_app, length_fmap. f_equal. lia.
  - by rewrite length_seq.
  - intros q [Hq1 Hq2]%elem_of_seq.
    destruct (lookup_lt_is_Some_2 cs (q - length heap)) as [c Hc]; [lia|].
    exists c. rewrite lookup_app_r by lia. rewrite list_lookup_fmap, Hc. split; [done|].
    apply list_elem_of_lookup_2 in Hc.
    apply list_elem_of_filter in Hc as [Hadm Hgen].
    split; [by apply admissible_walkable|].
    by apply (generated_adjacent grid (pos n)).
Qed.

Lemma get_neighbors_allocates_witness :
  let heap := [fresh (1, 1)] in
  let grid := [[0; 0]; [0; 0; 0]; [0; 1; 7; 0]] in
  ∃ heap' nbs,
    get_neighbors heap 0%nat grid = Ok (heap', nbs) ∧
    (∀ q, (q < length heap)%nat → heap' !! q = heap !! q) ∧
    nbs = seq (length heap) (length heap' - length heap) ∧
    (length nbs ≤ 4)%nat ∧
    ∀ q, q ∈ nbs →
         ∃ c, heap' !! q = Some (fresh c) ∧ walkable grid c ∧ adjacent (pos (fresh (1, 1))) c.
Proof.
  apply (get_neighbors_allocates [fresh (1, 1)] 0%nat (fresh (1, 1))
           [[0; 0]; [0; 0; 0]; [0; 1; 7; 0]]).
  - split; [done|]. intros row Hrow.
    rewrite !elem_of_cons, elem_of_nil in Hrow.
    destruct Hrow as [->|[->|[->|[]]]]; simpl; lia.
  - reflexivity.
  - unfold in_int, int_min, int_max. simpl. lia.
  - unfold in_int, int_min, int_max. simpl. lia.
Defined.

Lemma adjacent_manhattan a b : adjacent a b ↔ manhattan a b = 1.
Proof.
  destruct a as [a1 a2], b as [b1 b2].
  unfold adjacent, steps, manhattan. rewrite !elem_of_cons, elem_of_nil. simpl. split.
  - intros [[= -> ->]|[[= -> ->]|[[= -> ->]|[[= -> ->]|[]]]]]; lia.
  - intros H.
    assert ((b1 = a1 - 1 ∧ b2 = a2) ∨ (b1 = a1 + 1 ∧ b2 = a2) ∨
            (b1 = a1 ∧ b2 = a2 - 1) ∨ (b1 = a1 ∧ b2 = a2 + 1)) as Hcases by lia.
    destruct Hcases as [[-> ->]|[[-> ->]|[[-> ->]|[-> ->]]]]; auto.
Qed.

Lemma adjacent_sym a b : adjacent a b → adjacent b a.
Proof. rewrite !adjacent_manhattan. unfold manhattan. lia. Qed.

(** On a non-empty rectangular grid that fits in [int], the neighbour
    relation between walkable cells is symmetric: [b] is returned for [a]
    exactly when [a] is returned for [b]. *)
Theorem get_neighbors_symmetric (heap heap' : list Node) (p q : ptr) (a b : Node)
    (grid : Grid) :
  rectangular grid →
  Z.of_nat (length grid) ≤ int_max →
  Z.of_nat (length (default [] (grid !! 0%nat))) ≤ int_max →
  heap !! p = Some a → heap' !! q = Some b →
  walkable grid (pos a) → walkable grid (pos b) →
  ∃ resa resb,
    get_neighbors heap p grid = Ok resa ∧ get_neighbors heap' q grid = Ok resb ∧
    (pos b ∈ returned_cells resa ↔ pos a ∈ returned_cells resb).
Proof.
  intros Hrect Hrows Hcols Hp Hq Ha Hb.
  assert (∀ c, walkable grid c → in_int c.1 ∧ in_int c.2) as Hint.
  { intros c [[H1 H2] _]. unfold in_int, int_min, int_max in *. lia. }
  destruct (Hint _ Ha) as [Ha1 Ha2]. destruct (Hint _ Hb) as [Hb1 Hb2].
  destruct (get_neighbors_defined heap p a grid Hrect Hp) as [[ha na] Hra].
  destruct (get_neighbors_defined heap' q b grid Hrect Hq) as [[hb nb] Hrb].
  exists (ha, na), (hb, nb). split_and!; [done|done|].
  destruct (get_neighbors_Ok _ _ _ _ _ _ Hp Hra) as [-> ->].
  destruct (get_neighbors_Ok _ _ _ _ _ _ Hq Hrb) as [-> ->].
  rewrite !returned_cells_fresh, !candidates_exact by done.
  rewrite !list_elem_of_filter.
  change (x a, y a) with (pos a). change (x b, y b) with (pos b).
  split; intros [_ Hadj]; (split; [done|]); by apply adjacent_sym.
Qed.

Lemma get_neighbors_symmetric_witness :
  ∃ resa resb,
    get_neighbors [fresh (0, 0)] 0%nat ring = Ok resa ∧
    get_neighbors [fresh (0, 0); fresh (1, 0)] 1%nat ring = Ok resb ∧
    (pos (fresh (1, 0)) ∈ returned_cells resa ↔ pos (fresh (0, 0)) ∈ returned_cells resb).
Proof.
  apply (get_neighbors_symmetric [fresh (0, 0)] [fresh (0, 0); fresh (1, 0)] 0%nat 1%nat
           (fresh (0, 0)) (fresh (1, 0)) ring).
  - apply ring_rectangular.
  - unfold int_max. simpl. lia.
  - unfold int_max. simpl. lia.
  - reflexivity.
  - reflexivity.
  - compute_done.
  - compute_done.
Defined.

(** ** A heap that grows upwards makes the search breadth-first *)

Section Bfs.

Variable addr : ptr → Z.
Hypothesis addr_mono : ∀ p q, (p < q)%nat → addr p < addr q.
Variable grid : Grid.
Variables start goal : coord.

(** The node allocated first is the one with the least address. *)
Lemma top_head open : StronglySorted lt open → top addr open = head open.
Proof.
  induction 1 as [|p rest Hrest IH Hp]; [done|]. cbn [top]. rewrite IH.
  destruct rest as [|q rest]; [done|]. simpl.
  apply Forall_cons in Hp as [Hpq _].
  pose proof (addr_mono p q Hpq). by rewrite (proj2 (Z.ltb_ge _ _)) by lia.
Qed.

Lemma pop_tail open : StronglySorted lt open → pop addr open = tail open.
Proof.
  intros Hs. unfold pop. rewrite (top_head open Hs).
  destruct open as [|p rest]; [done|]. simpl. by rewrite decide_True.
Qed.

Lemma gof_registered st p n : registered st p n → gof st p = g n.
Proof. intros [Hp _]. unfold gof. by rewrite Hp. Qed.

Lemma bfs_inv_init : bfs_inv grid goal (init_state start goal).
Proof.
  split_and!; simpl.
  - repeat constructor.
  - intros p q ->%list_elem_of_singleton ->%list_elem_of_singleton. lia.
  - intros p q ->%list_elem_of_singleton ->%list_elem_of_singleton. lia.
  - intros c p [<- <-]%lookup_singleton_Some. left. by left.
Qed.

Lemma bfs_inv_step fuel0 st st' :
  search_inv grid start goal st → bfs_inv grid goal st →
  loop_body addr fuel0 grid st = Continue st' →
  bfs_inv grid goal st'.
Proof.
  intros (HI & _) (Hsorted & Hmono & Hband & Hdone) Hbody.
  destruct (loop_body_Continue_facts _ _ _ _ _ _ _ HI Hbody)
    as (current & cur & news & Htop & Hcur & Hgoal & Hreg & Hexp & Hnew & Hopen & Hsn & Hge).
  rewrite (pop_tail _ Hsorted) in Hopen. rewrite (top_head _ Hsorted) in Htop.
  destruct (openSet st) as [|current' rest] eqn:Hopen0; [done|].
  injection Htop as ->. simpl in Hopen.
  apply StronglySorted_cons in Hsorted as [Hlt Hsrest].
  rewrite Forall_forall in Hlt.
  pose proof (gof_registered _ _ _ Hcur) as Hgcur.
  assert (∀ p, p ∈ current :: rest → gof st' p = gof st p ∧ (p < length (heap st))%nat) as Hold.
  { intros p Hp. rewrite <- Hopen0 in Hp.
    destruct (inv_open _ _ _ _ _ HI p Hp) as [n Hn].
    destruct (registered_inv _ _ _ _ _ _ _ HI Hn) as (HpW & _).
    split; [|done]. by rewrite (gof_registered _ _ _ Hn), (gof_registered _ _ _ (Hreg p n Hn)). }
  assert (∀ p, p ∈ news → gof st' p = g cur + 1 ∧ (length (heap st) ≤ p)%nat) as Hnews.
  { intros p Hp. destruct (Hge p Hp) as (Hle & _ & n & Hn & _ & _ & Hg & _).
    split; [|done]. unfold gof. by rewrite Hn. }
  assert (∀ p, p ∈ rest → g cur ≤ gof st p ≤ g cur + 1) as Hrange.
  { intros p Hp. rewrite <- Hgcur. split.
    - apply Hmono; [by left|by right|by apply Hlt].
    - apply Hband; [by left|by right]. }
  assert (∀ c p, allNodes st !! c = Some p → gof st' p = gof st p) as Hstable.
  { intros c p Hc. destruct (inv_reg _ _ _ _ _ HI c p Hc) as (_ & n & Hn & Hpos & _).
    assert (registered st p n) as Hr by (split; [done|by rewrite Hpos]).
    by rewrite (gof_registered _ _ _ Hr), (gof_registered _ _ _ (Hreg p n Hr)). }
  rewrite <- Hgcur in *.
  split_and!; rewrite Hopen.
  - apply StronglySorted_app. split_and!; [|done|done].
    intros p q Hp Hq. destruct (Hold p (list_elem_of_further _ _ _ Hp)).
    destruct (Hnews q Hq). lia.
  - intros p q [Hp|Hp]%elem_of_app [Hq|Hq]%elem_of_app Hpq.
    + destruct (Hold p (list_elem_of_further _ _ _ Hp)) as [-> _].
      destruct (Hold q (list_elem_of_further _ _ _ Hq)) as [-> _].
      apply Hmono; [by right|by right|done].
    + destruct (Hold p (list_elem_of_further _ _ _ Hp)) as [-> _].
      destruct (Hnews q Hq) as [-> _]. apply Hrange. done.
    + destruct (Hold q (list_elem_of_further _ _ _ Hq)). destruct (Hnews p Hp). lia.
    + destruct (Hnews p Hp) as [-> _]. destruct (Hnews q Hq) as [-> _]. lia.
  - intros p q [Hp|Hp]%elem_of_app [Hq|Hq]%elem_of_app.
    + destruct (Hold p (list_elem_of_further _ _ _ Hp)) as [-> _].
      destruct (Hold q (list_elem_of_further _ _ _ Hq)) as [-> _].
      apply Hband; by right.
    + destruct (Hold p (list_elem_of_further _ _ _ Hp)) as [-> _].
      destruct (Hnews q Hq) as [-> _]. pose proof (Hrange p Hp). lia.
    + destruct (Hold q (list_elem_of_further _ _ _ Hq)) as [-> _].
      destruct (Hnews p Hp) as [-> _]. pose proof (Hrange q Hq). lia.
    + destruct (Hnews p Hp) as [-> _]. destruct (Hnews q Hq) as [-> _]. lia.
  - assert (∀ q, q ∈ rest ++ news → gof st current ≤ gof st' q) as Hleast.
    { intros q [Hq|Hq]%elem_of_app.
      - destruct (Hold q (list_elem_of_further _ _ _ Hq)) as [-> _]. by apply Hrange.
      - destruct (Hnews q Hq) as [-> _]. lia. }
    intros c p Hc. destruct (Hnew c p Hc) as [Hc0|Hin].
    2:{ left. apply elem_of_app. by right. }
    rewrite (Hstable c p Hc0).
    destruct (Hdone c p Hc0) as [Hin|(Hne & Hmin & Hnb)].
    + apply elem_of_cons in Hin as [->|Hin]; [|left; apply elem_of_app; by left].
      right.
      assert (c = pos cur) as ->.
      { destruct (inv_reg _ _ _ _ _ HI c current Hc0) as (_ & n & Hn & <- & _).
        destruct Hcur. congruence. }
      split_and!; [done|done|].
      intros c' Hgen Hadm. destruct (Hexp c' Hgen Hadm) as [p' Hp']. exists p'. split; [done|].
      destruct (Hnew c' p' Hp') as [Hold'|Hin'].
      * rewrite (Hstable c' p' Hold').
        destruct (Hdone c' p' Hold') as [Hin'|(_ & Hmin' & _)].
        -- apply Hband; [by left|done].
        -- assert (gof st p' ≤ gof st current) by (apply Hmin'; by left). lia.
      * destruct (Hnews p' Hin') as [-> _]. lia.
    + right. split_and!; [done| |].
      * intros q Hq. specialize (Hmin current). specialize (Hleast q Hq).
        assert (gof st p ≤ gof st current) by (apply Hmin; by left). lia.
      * intros c' Hgen Hadm. destruct (Hnb c' Hgen Hadm) as (p' & Hp' & Hle).
        exists p'. destruct (inv_reg _ _ _ _ _ HI c' p' Hp') as (_ & n & Hn & Hpos & _).
        assert (registered st p' n) as Hr by (split; [done|by rewrite Hpos]).
        split; [rewrite <- Hpos; apply (Hreg p' n Hr)|].
        by rewrite (Hstable c' p' Hp').
Qed.

(** A run that returns a path has popped the goal from the top. *)
Lemma main_loop_bfs fuel : ∀ st P,
  search_inv grid start goal st → bfs_inv grid goal st →
  main_loop addr (fuel_bound grid) fuel grid st = Ok P → P ≠ [] →
  ∃ st' current cur,
    search_inv grid start goal st' ∧ bfs_inv grid goal st' ∧
    (∀ p n, registered st p n → registered st' p n) ∧
    head (openSet st') = Some current ∧ registered st' current cur ∧ pos cur = goal ∧
    Z.of_nat (length P) = g cur + 1.
Proof.
  induction fuel as [|fuel IH]; intros st P Hinv Hbfs; [done|]. cbn [main_loop].
  destruct (loop_body addr (fuel_bound grid) grid st) as [st1|r] eqn:Hbody.
  - destruct (search_inv_step _ _ _ _ _ _ _ Hinv Hbody) as [Hinv1 Hreg1].
    pose proof (bfs_inv_step _ _ _ Hinv Hbfs Hbody) as Hbfs1.
    intros Hrun HP.
    destruct (IH st1 P Hinv1 Hbfs1 Hrun HP)
      as (st' & current & cur & Hi' & Hb' & Hreg' & Hh' & Hc' & Hp' & Hl').
    exists st', current, cur. split_and!; auto.
  - intros -> HP. exists st. pose proof Hinv as (HI & _). revert Hbody. unfold loop_body.
    destruct Hbfs as (Hsorted & Hbfs'). rewrite (top_head _ Hsorted).
    destruct (head (openSet st)) as [current|] eqn:Hhead; [|by intros [= <-]].
    assert (current ∈ openSet st) as Hin.
    { rewrite head_lookup in Hhead. by eapply list_elem_of_lookup_2. }
    destruct (inv_open _ _ _ _ _ HI current Hin) as [cur Hcur].
    unfold deref at 1 2. rewrite (proj1 Hcur), (inv_goal _ _ _ _ _ HI).
    destruct (_ && _) eqn:Hgoal.
    + intros [= Hrec]. exists current, cur.
      destruct (reconstruct_path_trail grid start goal _ st (fuel_bound grid) current cur HI Hcur)
        as (P' & HP' & Htrail); [unfold fuel_bound; lia|].
      rewrite HP' in Hrec. injection Hrec as ->.
      split_and!; auto; [by split| |by eapply trail_length].
      apply andb_true_iff in Hgoal as [Hx%Z.eqb_eq Hy%Z.eqb_eq].
      unfold pos. rewrite Hx, Hy. apply pos_fresh.
    + destruct (get_neighbors (heap st) current grid) as [[heap' nbs]| |]; [|done..].
      destruct (visit_neighbors _ _ _) as [st2| |]; done.
Qed.

Hypothesis rows_fit : Z.of_nat (length grid) ≤ int_max.
Hypothesis cols_fit : Z.of_nat (length (default [] (grid !! 0%nat))) ≤ int_max.
Hypothesis start_int : in_int start.1 ∧ in_int start.2.

(** Level by level: while the open set holds no cost below [i], every
    cell [i] steps along a route is registered at cost [i] or less. *)
Lemma bfs_levels st Q :
  search_inv grid start goal st → bfs_inv grid goal st →
  registered st startNode (fresh start) →
  stepwise Q → head Q = Some start → Forall (walkable grid) (tail Q) →
  ∀ i c, Q !! i = Some c →
         (∀ q, q ∈ openSet st → Z.of_nat i ≤ gof st q) →
         ∃ p, allNodes st !! c = Some p ∧ gof st p ≤ Z.of_nat i.
Proof.
  intros (HI & _) (_ & _ & _ & Hdone) Hstart Hstep Hhead Hwalk.
  induction i as [|i IH]; intros c Hc Hopen.
  - rewrite head_lookup in Hhead. assert (c = start) as -> by congruence.
    exists startNode. destruct Hstart as [Hp Hs]. rewrite pos_fresh in Hs.
    split; [done|]. unfold gof. rewrite Hp. simpl. lia.
  - destruct (lookup_lt_is_Some_2 Q i) as [b Hb].
    { apply lookup_lt_Some in Hc. lia. }
    destruct (IH b Hb) as (pb & Hpb & Hgb).
    { intros q Hq. specialize (Hopen q Hq). lia. }
    destruct (Hdone b pb Hpb) as [Hin|(_ & _ & Hnb)].
    { specialize (Hopen pb Hin). lia. }
    assert (in_int b.1 ∧ in_int b.2) as [H1 H2].
    { destruct (inv_reg _ _ _ _ _ HI b pb Hpb) as (_ & n & _ & <- & _ & [[_ ->]|Hok]).
      - by rewrite pos_fresh.
      - destruct Hok as (q & m & _ & _ & _ & _ & _ & Hadm). by apply (admissible_in_int grid). }
    assert (walkable grid c) as Hwc.
    { eapply Forall_forall; [exact Hwalk|].
      destruct Q as [|c0 Q]; [done|]. simpl in *. by eapply list_elem_of_lookup_2. }
    destruct (adjacent_generated grid b c rows_fit cols_fit H1 H2 (Hstep i b c Hb Hc) Hwc)
      as [Hgen Hadm].
    destruct (Hnb c Hgen Hadm) as (p' & Hp' & Hle). exists p'. split; [done|lia].
Qed.

Lemma a_star_bfs_shortest P Q :
  a_star addr grid start goal = Ok P → P ≠ [] → route grid start goal Q →
  (length P ≤ length Q)%nat.
Proof.
  intros Hrun HP (Hhead & Hlast & Hstep & Hwalk).
  destruct (main_loop_bfs _ _ P (search_inv_init grid start goal) bfs_inv_init Hrun HP)
    as (st & current & cur & Hinv & Hbfs & Hreg & Hcurhead & Hcur & Hpos & Hlen).
  assert (registered st startNode (fresh start)) as Hstart.
  { apply Hreg. split; [done|]. simpl. rewrite pos_fresh. apply lookup_singleton_eq. }
  destruct (decide (length P ≤ length Q)%nat) as [|Hlt]; [done|exfalso].
  assert (0 < length Q)%nat as HQ by (destruct Q; [done|simpl; lia]).
  rewrite last_lookup in Hlast.
  assert (∀ q, q ∈ openSet st → gof st current ≤ gof st q) as Hleast.
  { destruct Hbfs as (Hsorted & Hmono & _).
    destruct (openSet st) as [|c0 rest]; [done|]. injection Hcurhead as ->.
    apply StronglySorted_cons in Hsorted as [Hall _]. rewrite Forall_forall in Hall.
    intros q [->|Hq]%elem_of_cons; [lia|].
    apply Hmono; [by left|by right|by apply Hall]. }
  pose proof (gof_registered _ _ _ Hcur) as Hgcur.
  destruct (bfs_levels st Q Hinv Hbfs Hstart Hstep Hhead Hwalk (pred (length Q)) goal Hlast)
    as (p & Hp & Hle).
  { intros q Hq. specialize (Hleast q Hq). lia. }
  assert (p = current) as ->.
  { destruct Hcur as [_ Hc]. rewrite Hpos in Hc. congruence. }
  lia.
Qed.

End Bfs.

(** On a heap that hands out increasing addresses the search is
    breadth-first: a returned path is a shortest route.  This is when
    the search is optimal, by the order of allocation and not by [f]. *)
Theorem a_star_shortest_on_growing_heap (addr : ptr → Z) (grid : Grid) (start goal : coord)
    (P Q : list coord) :
  (∀ p q, (p < q)%nat → addr p < addr q) →
  Z.of_nat (length grid) ≤ int_max →
  Z.of_nat (length (default [] (grid !! 0%nat))) ≤ int_max →
  in_int start.1 → in_int start.2 →
  a_star addr grid start goal = Ok P → P ≠ [] →
  route grid start goal Q →
  (length P ≤ length Q)%nat.
Proof.
  intros Hmono Hrows Hcols Hx Hy. by apply a_star_bfs_shortest.
Qed.

Lemma a_star_shortest_on_growing_heap_witness :
  (length [(0%Z, 0%Z); (1%Z, 0%Z); (2%Z, 0%Z)] ≤ length [(0%Z, 0%Z); (1%Z, 0%Z); (2%Z, 0%Z)])%nat.
Proof.
  apply (a_star_shortest_on_growing_heap up ring (0, 0) (2, 0)).
  - intros p q Hpq. unfold up. lia.
  - unfold int_max. simpl. lia.
  - unfold int_max. simpl. lia.
  - unfold in_int, int_min, int_max. simpl. lia.
  - unfold in_int, int_min, int_max. simpl. lia.
  - vm_compute. reflexivity.
  - discriminate.
  - apply ring_route.
Defined.

(** ** Parent links and cleanup *)

Lemma walled_rectangular : rectangular walled.
Proof.
  split; [done|]. intros row Hrow. unfold walled in Hrow.
  rewrite !elem_of_cons, elem_of_nil in Hrow. by destruct Hrow as [->|[->|[->|[]]]].
Defined.

(** On a non-empty rectangular grid, in every state of the search the
    parent links of a registered node lead back to the start:
    [reconstruct_path] from it returns a route from the start to the
    node's cell, without repetition, and the node's cost [g] is the
    number of steps of that route. *)
Theorem registered_node_route (addr : ptr → Z) (grid : Grid) (start goal : coord)
    (k : nat) (st : state) (p : ptr) (n : Node) :
  rectangular grid →
  in_int start.1 → in_int start.2 →
  iterate addr k grid (init_state start goal) = Some st →
  registered st p n →
  ∃ P, reconstruct_path (fuel_bound grid) (heap st) p = Ok P ∧
       route grid start (pos n) P ∧ NoDup P ∧ Z.of_nat (length P) = g n + 1.
Proof.
  intros _ Hx Hy Hk Hreg.
  destruct (iterate_search_inv addr grid start goal k _ _ (search_inv_init grid start goal) Hk)
    as [(HI & _) _].
  destruct (reconstruct_path_trail grid start goal _ st (fuel_bound grid) p n HI Hreg)
    as (P & HP & Htrail); [unfold fuel_bound; lia|].
  exists P. split; [done|]. by apply (trail_route grid start st).
Qed.

Lemma registered_node_route_witness :
  let st := default (init_state (0, 0) (0, 4))
              (iterate down 6 walled (init_state (0, 0) (0, 4))) in
  ∃ P, reconstruct_path (fuel_bound walled) (heap st) 12%nat = Ok P ∧
       route walled (0, 0) (pos (new_Node 2 0 6 6 (Some 11%nat))) P ∧ NoDup P ∧
       Z.of_nat (length P) = g (new_Node 2 0 6 6 (Some 11%nat)) + 1.
Proof.
  apply (registered_node_route down walled (0, 0) (0, 4) 6).
  - apply walled_rectangular.
  - unfold in_int, int_min, int_max. simpl. lia.
  - unfold in_int, int_min, int_max. simpl. lia.
  - vm_compute. reflexivity.
  - split; vm_compute; reflexivity.
Defined.

(** The cleanup deletes only nodes that were allocated, none of them
    twice, and never the goal node of line 98, which is not in the
    registry in any state of the search: that node is leaked. *)
Theorem cleanup_deletes_once (addr : ptr → Z) (grid : Grid) (start goal : coord)
    (k : nat) (st : state) :
  iterate addr k grid (init_state start goal) = Some st →
  NoDup (cleanup st) ∧
  (∀ p, p ∈ cleanup st → (p < length (heap st))%nat) ∧
  startNode ∈ cleanup st ∧ goalNode ∉ cleanup st.
Proof.
  intros Hk.
  destruct (iterate_search_inv addr grid start goal k _ _ (search_inv_init grid start goal) Hk)
    as [(HI & _) Hkeep].
  assert (∀ p, p ∈ cleanup st ↔ ∃ c, allNodes st !! c = Some p) as Hin.
  { intros p. unfold cleanup. rewrite list_elem_of_fmap. split.
    - intros ([c q] & -> & Hcq%elem_of_map_to_list). eauto.
    - intros [c Hc]. exists (c, p). split; [done|]. by apply elem_of_map_to_list. }
  split_and!.
  - unfold cleanup. apply NoDup_fmap_2_strong; [|apply NoDup_map_to_list].
    intros [c1 p1] [c2 p2] H1%elem_of_map_to_list H2%elem_of_map_to_list Heq.
    simpl in Heq. subst p2.
    destruct (inv_reg _ _ _ _ _ HI c1 p1 H1) as (_ & n1 & Hn1 & <- & _).
    destruct (inv_reg _ _ _ _ _ HI c2 p1 H2) as (_ & n2 & Hn2 & <- & _).
    congruence.
  - intros p [c Hc]%Hin. by destruct (inv_reg _ _ _ _ _ HI c p Hc) as (? & _).
  - apply Hin. exists start.
    destruct (Hkeep startNode (fresh start)) as [_ H]; [|by rewrite pos_fresh in H].
    split; [done|]. simpl. rewrite pos_fresh. apply lookup_singleton_eq.
  - intros [c Hc]%Hin.
    destruct (inv_reg _ _ _ _ _ HI c goalNode Hc) as (_ & n & Hn & _ & _ & Hok).
    rewrite (inv_goal _ _ _ _ _ HI) in Hn. injection Hn as <-.
    destruct Hok as [[? _]|(q & m & Hpar & _)]; done.
Qed.

Lemma cleanup_deletes_once_witness :
  let st := default (init_state (0, 0) (2, 2)) (iterate up 2 ring (init_state (0, 0) (2, 2))) in
  NoDup (cleanup st) ∧
  (∀ p, p ∈ cleanup st → (p < length (heap st))%nat) ∧
  startNode ∈ cleanup st ∧ goalNode ∉ cleanup st.
Proof.
  apply (cleanup_deletes_once up ring (0, 0) (2, 2) 2). vm_compute. reflexivity.
Defined.
